(** * Clause matching and report orchestration (comparison.py, inference.py)

    A shallow embedding of the regulation pipeline: clause segmentation,
    relevance filtering, prompt composition, report generation and storage,
    and the single-file and whole-folder entry points.

    Conventions of the embedding.
    - A Python [str] is a list of Unicode code points ([N]).
    - A similarity score is the rational number a single-precision tensor
      element denotes, a threshold the rational number a Python float
      denotes.  The comparison [score >= threshold] of a tensor element with
      a Python number is made in single precision: the threshold is rounded
      to the nearest single-precision value first ([Float32]).  Not-a-number
      and the sign of zero are not represented.
    - The embedding model, the cosine-similarity routine and the LLM client
      are libraries outside the repository; they are the fields of an
      environment record [Env] and may raise.
    - The filesystem, the standard output and the clock are the fields of a
      [World] that the effectful functions thread explicitly; every effectful
      function returns a result (a value or a raised exception) together with
      the world it leaves behind.  Paths follow [posixpath].
    - A file holds the text that was written to it.  Reading in text mode
      translates the line ends; writing encodes the text as UTF-8, which
      fails on a surrogate, and leaves line feeds as they are (POSIX). *)

From Stdlib Require Import NArith ZArith QArith Qabs Qpower List Ascii String.
From Stdlib Require Import Lia Lqa DecimalN DecimalPos.
From stdpp Require Import base option list gmap.

Import ListNotations.
Local Open Scope list_scope.
Local Open Scope N_scope.

(** ** Python strings *)

Module Str.

(** A character is a code point, a string a list of them. *)
Abbreviation char := N (only parsing).
Abbreviation str := (list N) (only parsing).

(** An ASCII literal of the source as a list of code points. *)
Definition lit (s : String.string) : str :=
  List.map N_of_ascii (list_ascii_of_string s).

Definition LF : char := 10.
Definition CR : char := 13.

(** [str.isspace] on one character, the table [str.strip()] uses
    ([_PyUnicode_IsWhitespace]). *)
Definition isspace (c : char) : bool :=
  ((9 <=? c) && (c <=? 13)) || ((28 <=? c) && (c <=? 32))
  || (c =? 133) || (c =? 160) || (c =? 5760)
  || ((8192 <=? c) && (c <=? 8202))
  || (c =? 8232) || (c =? 8233) || (c =? 8239) || (c =? 8287)
  || (c =? 12288).

(** [s.lstrip()] *)
Fixpoint lstrip (s : str) : str :=
  match s with
  | [] => []
  | c :: t => if isspace c then lstrip t else s
  end.

(** [s.rstrip()] *)
Definition rstrip (s : str) : str := rev (lstrip (rev s)).

(** [s.strip()] *)
Definition strip (s : str) : str := rstrip (lstrip s).

(** Truth value of a string: [bool(s)]. *)
Definition truthy (s : str) : bool :=
  match s with [] => false | _ :: _ => true end.

(** [s.split("\n\n")]: the pieces between the leftmost, non-overlapping
    occurrences of two consecutive line feeds; empty pieces are kept, and
    the result always has at least one piece. *)
Fixpoint split_nn (s : str) : list str :=
  match s with
  | [] => [[]]
  | c :: t =>
      match t with
      | d :: t' =>
          if (c =? LF) && (d =? LF) then [] :: split_nn t'
          else match split_nn t with
               | p :: ps => (c :: p) :: ps
               | [] => [[c]]
               end
      | [] => [[c]]
      end
  end.

(** [sep.join(parts)] *)
Fixpoint join (sep : str) (parts : list str) : str :=
  match parts with
  | [] => []
  | [p] => p
  | p :: ps => p ++ sep ++ join sep ps
  end.

(** [s.endswith(suffix)] *)
Fixpoint startswith (s pre : str) : bool :=
  match pre, s with
  | [], _ => true
  | _ :: _, [] => false
  | a :: pre', b :: s' => (a =? b) && startswith s' pre'
  end.

Definition endswith (s suffix : str) : bool :=
  startswith (rev s) (rev suffix).

(** Decimal digits of a natural number, most significant first
    ([str(n)] for [n >= 0]). *)
Fixpoint uint_chars (d : Decimal.uint) : str :=
  match d with
  | Decimal.Nil => []
  | Decimal.D0 d => 48 :: uint_chars d
  | Decimal.D1 d => 49 :: uint_chars d
  | Decimal.D2 d => 50 :: uint_chars d
  | Decimal.D3 d => 51 :: uint_chars d
  | Decimal.D4 d => 52 :: uint_chars d
  | Decimal.D5 d => 53 :: uint_chars d
  | Decimal.D6 d => 54 :: uint_chars d
  | Decimal.D7 d => 55 :: uint_chars d
  | Decimal.D8 d => 56 :: uint_chars d
  | Decimal.D9 d => 57 :: uint_chars d
  end.

Definition decimal (n : N) : str := uint_chars (N.to_uint n).

(** Decimal digits padded with zeros on the left to at least [width]
    characters (the [%02d] and [%04d] conversions). *)
Definition zero_pad (width : nat) (n : N) : str :=
  let d := decimal n in
  repeat 48 (width - length d) ++ d.

Definition isdigit (c : char) : bool := (48 <=? c) && (c <=? 57).

(** The number a run of decimal digits denotes ([int(s)] for such a run);
    [None] when a character is not a digit. *)
Fixpoint digits_value (acc : N) (s : str) : option N :=
  match s with
  | [] => Some acc
  | c :: t => if isdigit c then digits_value (10 * acc + (c - 48)) t else None
  end.

(** What reading in text mode with [newline=None] makes of the content of a
    file: a carriage return followed by a line feed, and a carriage return
    alone, are read as one line feed. *)
Fixpoint universal_newlines (s : str) : str :=
  match s with
  | [] => []
  | c :: t =>
      if c =? CR then
        LF :: match t with
              | d :: t' =>
                  if d =? LF then universal_newlines t' else universal_newlines t
              | [] => []
              end
      else c :: universal_newlines t
  end.

(** A surrogate code point (U+D800 to U+DFFF). *)
Definition is_surrogate (c : char) : bool := (55296 <=? c) && (c <=? 57343).

(** [text.encode("utf-8")] succeeds: no code point is a surrogate. *)
Definition utf8_encodable (text : str) : bool :=
  forallb (fun c => negb (is_surrogate c)) text.

(** The longest prefix of characters that pass a test. *)
Fixpoint take_while (test : char -> bool) (s : str) : str :=
  match s with
  | [] => []
  | c :: t => if test c then c :: take_while test t else []
  end.

(** One hexadecimal digit, in lower case. *)
Definition hex_digit (n : N) : char := if n <? 10 then 48 + n else 87 + n.

(** The conversion [%04x] of a number below 65536. *)
Definition hex4 (n : N) : str :=
  [hex_digit (n / 4096); hex_digit ((n / 256) mod 16);
   hex_digit ((n / 16) mod 16); hex_digit (n mod 16)].

(** [s.rfind(c)] for a single character: the highest index at which [c]
    occurs, or [-1]. *)
Fixpoint rfind_from (i : Z) (found : Z) (c : char) (s : str) : Z :=
  match s with
  | [] => found
  | d :: t => rfind_from (i + 1) (if d =? c then i else found) c t
  end.

Definition rfind (c : char) (s : str) : Z := rfind_from 0 (-1) c s.

(** The slices [s[:i]], [s[i:]] and [s[i:j]] for indices that are not
    negative. *)
Definition slice_to (i : Z) (s : str) : str := take (Z.to_nat i) s.
Definition slice_from (i : Z) (s : str) : str := drop (Z.to_nat i) s.
Definition slice (i j : Z) (s : str) : str := slice_from i (slice_to j s).

End Str.
Import Str.

(** ** comparison.py: segmentation *)

(** [extract_clauses]: split on blank lines, trim every candidate and keep
    the candidates that are not empty after trimming. *)
Definition extract_clauses (text : str) : list str :=
  List.map strip (List.filter (fun clause => truthy (strip clause)) (split_nn text)).


(** ** posixpath *)

Module PosixPath.

Definition SEP : char := 47.
Definition EXTSEP : char := 46.

(** [os.path.basename(p)]: [p[p.rfind('/') + 1:]]. *)
Definition basename (p : str) : str := slice_from (rfind SEP p + 1) p.

(** [os.path.splitext(p)] ([genericpath._splitext]): the extension starts at
    the last dot of the last path component, unless that component has only
    dots before it. *)
Definition splitext (p : str) : str * str :=
  let sepIndex := rfind SEP p in
  let dotIndex := rfind EXTSEP p in
  if (sepIndex <? dotIndex)%Z then
    if existsb (fun c => negb (c =? EXTSEP)) (slice (sepIndex + 1) dotIndex p)
    then (slice_to dotIndex p, slice_from dotIndex p)
    else (p, [])
  else (p, []).

(** [os.path.join(a, b)] with two arguments. *)
Definition join (a b : str) : str :=
  if startswith b [SEP] then b
  else if negb (truthy a) || endswith a [SEP] then a ++ b
  else a ++ [SEP] ++ b.

(** A path with a character other than the separator in it. *)
Definition has_name (p : str) : bool := existsb (fun c => negb (c =? SEP)) p.

(** A path that ends in a character other than the separator. *)
Definition ends_in_name (p : str) : bool :=
  match rev p with
  | [] => false
  | c :: _ => negb (c =? SEP)
  end.

(** The directories above a path, the nearest first: [a/b] and [a] for
    [a/b/c].  The path is cut before every separator that follows a name
    and has a name after it; [before] is the part already walked. *)
Fixpoint ancestors_from (before rest : str) : list str :=
  match rest with
  | [] => []
  | c :: t =>
      let deeper := ancestors_from (before ++ [c]) t in
      if (c =? SEP) && ends_in_name before && has_name t
      then deeper ++ [before]
      else deeper
  end.

Definition ancestors (p : str) : list str := ancestors_from [] p.

End PosixPath.


(** ** Exceptions and results *)

(** The exception classes the pipeline meets.  [LibraryError] stands for the
    classes of the external libraries (the embedding model, the LLM client),
    all derived from [Exception]; [KeyboardInterrupt] stands for the classes
    derived from [BaseException] only. *)
Inductive exn_class :=
| FileNotFoundError
| FileExistsError
| IsADirectoryError
| NotADirectoryError
| UnicodeEncodeError
| NameError
| IndexError
| AttributeError
| LibraryError
| KeyboardInterrupt.

(** An exception: its class and its description [str(e)]. *)
Record exn := Exn { exn_cls : exn_class; exn_str : str }.

(** [isinstance(e, Exception)] *)
Definition is_Exception (e : exn) : bool :=
  match exn_cls e with
  | KeyboardInterrupt => false
  | _ => true
  end.

Inductive res (A : Type) :=
| Ok (a : A)
| Raise (e : exn).
Arguments Ok {A} a.
Arguments Raise {A} e.

Definition res_bind {A B} (r : res A) (k : A -> res B) : res B :=
  match r with
  | Ok a => k a
  | Raise e => Raise e
  end.

Declare Scope res_scope.
Delimit Scope res_scope with res.
Notation "x <- r ;; k" := (res_bind r (fun x => k))
  (at level 100, r at next level, right associativity) : res_scope.

(** ** The world: files, directories, standard output, clock *)

(** [datetime]: the fields [strftime] reads. *)
Record datetime := Datetime {
  year : N; month : N; day : N; hour : N; minute : N; second : N }.


(** [d.strftime("%Y%m%d_%H%M%S")] *)
Definition strftime (d : datetime) : str :=
  zero_pad 4 (year d) ++ zero_pad 2 (month d) ++ zero_pad 2 (day d)
  ++ lit "_" ++ zero_pad 2 (hour d) ++ zero_pad 2 (minute d)
  ++ zero_pad 2 (second d).

(** Paths are kept as written (no normalisation).  A directory carries the
    answer [os.listdir] gives for it.  The clock is the sequence of answers
    of [datetime.now()]; [reads] counts the calls made so far. *)
Record World := MkWorld {
  files : gmap str str;
  dirs : gmap str (list str);
  stdout : list str;
  clock : nat -> datetime;
  reads : nat }.

Definition set_files (f : gmap str str) (w : World) : World :=
  MkWorld f (dirs w) (stdout w) (clock w) (reads w).
Definition set_dirs (d : gmap str (list str)) (w : World) : World :=
  MkWorld (files w) d (stdout w) (clock w) (reads w).
Definition set_stdout (o : list str) (w : World) : World :=
  MkWorld (files w) (dirs w) o (clock w) (reads w).
Definition set_reads (n : nat) (w : World) : World :=
  MkWorld (files w) (dirs w) (stdout w) (clock w) n.

(** An effectful computation: the result and the world left behind (also
    when an exception is raised). *)
Definition M (A : Type) : Type := World -> res A * World.

Definition ret {A} (a : A) : M A := fun w => (Ok a, w).
Definition raise {A} (e : exn) : M A := fun w => (Raise e, w).
Definition lift {A} (r : res A) : M A := fun w => (r, w).

Definition bind {A B} (m : M A) (k : A -> M B) : M B :=
  fun w =>
    match m w with
    | (Ok a, w') => k a w'
    | (Raise e, w') => (Raise e, w')
    end.

Declare Scope io_scope.
Delimit Scope io_scope with io.
Notation "x <- m ;; k" := (bind m (fun x => k))
  (at level 100, m at next level, right associativity) : io_scope.
Notation "m ;;; k" := (bind m (fun _ => k))
  (at level 100, right associativity) : io_scope.

(** [try: body  except Exception as e: handler(e)] *)
Definition try_except {A} (body : M A) (handler : exn -> M A) : M A :=
  fun w =>
    match body w with
    | (Ok a, w') => (Ok a, w')
    | (Raise e, w') => if is_Exception e then handler e w' else (Raise e, w')
    end.

(** [repr(path)] in the messages of the operating-system errors, for paths
    without quotes or escapes. *)
Definition repr (p : str) : str := lit "'" ++ p ++ lit "'".

Definition os_error (c : exn_class) (msg : String.string) (p : str) : exn :=
  Exn c (lit msg ++ repr p).

(** [print(line)] *)
Definition print (line : str) : M unit :=
  fun w => (Ok tt, set_stdout (stdout w ++ [line]) w).

(** [open(path, "r", encoding="utf-8").read()]: the content with the line
    ends translated. *)
Definition read_file (path : str) : M str :=
  fun w =>
    match files w !! path with
    | Some text => (Ok (universal_newlines text), w)
    | None =>
        match dirs w !! path with
        | Some _ => (Raise (os_error IsADirectoryError "[Errno 21] Is a directory: " path), w)
        | None => (Raise (os_error FileNotFoundError "[Errno 2] No such file or directory: " path), w)
        end
    end.

(** The error [text.encode("utf-8")] raises on the first run of surrogates
    of a text: the description names the character and its position, or
    the positions of the run when it has more than one character. *)
Definition encode_error (text : str) : exn :=
  let before := take_while (fun c => negb (is_surrogate c)) text in
  let run := take_while is_surrogate (drop (length before) text) in
  let start := N.of_nat (length before) in
  Exn UnicodeEncodeError
    (match run with
     | [c] =>
         lit "'utf-8' codec can't encode character '" ++ [92; 117] ++ hex4 c
         ++ lit "' in position " ++ decimal start
     | _ =>
         lit "'utf-8' codec can't encode characters in position "
         ++ decimal start ++ lit "-"
         ++ decimal (start + N.of_nat (length run) - 1)
     end
     ++ lit ": surrogates not allowed").

(** [with open(path, "w", encoding="utf-8") as f: f.write(text)]: opening
    creates the file or empties it; a text with a surrogate in it cannot be
    encoded, and the file is left empty. *)
Definition write_file (path text : str) : M unit :=
  fun w =>
    match dirs w !! path with
    | Some _ => (Raise (os_error IsADirectoryError "[Errno 21] Is a directory: " path), w)
    | None =>
        if utf8_encodable text
        then (Ok tt, set_files (<[path := text]> (files w)) w)
        else (Raise (encode_error text),
              set_files (<[path := []]> (files w)) w)
    end.

(** [os.path.exists(path)] *)
Definition os_path_exists (path : str) : M bool :=
  fun w => (Ok (bool_decide (is_Some (files w !! path)) || bool_decide (is_Some (dirs w !! path))), w).

(** [os.listdir(path)] *)
Definition os_listdir (path : str) : M (list str) :=
  fun w =>
    match dirs w !! path with
    | Some names => (Ok names, w)
    | None =>
        match files w !! path with
        | Some _ => (Raise (os_error NotADirectoryError "[Errno 20] Not a directory: " path), w)
        | None => (Raise (os_error FileNotFoundError "[Errno 2] No such file or directory: " path), w)
        end
    end.

(** The directories [os.makedirs] has to make above [child], given the
    directories above it, the nearest first: those up to the nearest one
    that exists.  When that one is a regular file nothing can be made, and
    the answer is the path whose [mkdir] fails. *)
Fixpoint makedirs_plan (w : World) (child : str) (nearest_first : list str)
  : str + list str :=
  match nearest_first with
  | [] => inr []
  | a :: further =>
      match files w !! a with
      | Some _ => inl child
      | None =>
          match dirs w !! a with
          | Some _ => inr []
          | None =>
              match makedirs_plan w a further with
              | inl failing => inl failing
              | inr made => inr (a :: made)
              end
          end
      end
  end.

(** New, empty directories. *)
Definition make_dirs (made : list str) (d : gmap str (list str))
  : gmap str (list str) :=
  foldr (fun p m => <[p := []]> m) d made.

(** [os.makedirs(path, exist_ok=True)]: nothing to do for a directory that
    exists; the missing directories above the path are made with it.  The
    empty path, a path taken by a regular file and a path below a regular
    file are errors. *)
Definition os_makedirs (path : str) : M unit :=
  fun w =>
    match path with
    | [] => (Raise (os_error FileNotFoundError "[Errno 2] No such file or directory: " path), w)
    | _ :: _ =>
        match files w !! path with
        | Some _ => (Raise (os_error FileExistsError "[Errno 17] File exists: " path), w)
        | None =>
            match dirs w !! path with
            | Some _ => (Ok tt, w)
            | None =>
                match makedirs_plan w path (PosixPath.ancestors path) with
                | inl failing =>
                    (Raise (os_error NotADirectoryError "[Errno 20] Not a directory: " failing), w)
                | inr made => (Ok tt, set_dirs (make_dirs (path :: made) (dirs w)) w)
                end
            end
        end
    end.

(** [datetime.now()] *)
Definition datetime_now : M datetime :=
  fun w => (Ok (clock w (reads w)), set_reads (S (reads w)) w).

(** ** The external libraries *)

(** The argument of [model.encode]: one text or a list of texts. *)
Inductive encode_arg :=
| OneText (text : str)
| ManyTexts (texts : list str).

(** A block of the content of an LLM message; only a text block has the
    attribute [text]. *)
Inductive content_block :=
| TextBlock (text : str)
| ToolUseBlock.

Record Message := { content : list content_block }.

(** [client.messages.create(model=..., max_tokens=..., messages=[...])],
    with the messages as (role, content) pairs. *)
Definition Client : Type := str -> Z -> list (str * str) -> res Message.

(** What the code calls and the repository does not define.
    - [SentenceTransformer name] loads the embedding model.
    - [encode model arg] is [model.encode(arg, convert_to_tensor=True)].
    - [cos_sim_row a b] is [util.cos_sim(a, b)[0]], read as the sequence of
      its scores.
    - [client] is the module-level name [client] that
      [generate_report_with_claude] looks up; [None] when the name is not
      bound in the module.
    - [str_lower] is [str.lower] (the Unicode case mapping). *)
Record Env := {
  Tensor : Type;
  Model : Type;
  SentenceTransformer : str -> res Model;
  encode : Model -> encode_arg -> res Tensor;
  cos_sim_row : Tensor -> Tensor -> res (list Q);
  client : option Client;
  str_lower : str -> str }.

(** ** comparison.py *)

(** ** Numbers *)

(** The nearest integer to [x], a tie going to the even one, for [x >= 0]. *)
Definition round_half_even (x : Q) : Z :=
  let n := Qnum x in
  let d := Zpos (Qden x) in
  let fl := (n / d)%Z in
  match (2 * (n mod d) ?= d)%Z with
  | Lt => fl
  | Gt => (fl + 1)%Z
  | Eq => if Z.even fl then fl else (fl + 1)%Z
  end.

(** Single precision (binary32): 24 significant bits, the exponent of the
    least normal number is -126, and a magnitude that rounds to [2^128] or
    more overflows to an infinity. *)
Module Float32.

Definition pow2 (z : Z) : Q := (2 ^ z)%Q.

(** The exponent [e] with [2^e <= a < 2^(e+1)], for [a > 0]. *)
Definition ilog2 (a : Q) : Z :=
  let c := (Z.log2 (Qnum a) - Z.log2 (Zpos (Qden a)))%Z in
  if Qle_bool (pow2 c) a then c else (c - 1)%Z.

Inductive value :=
| Finite (v : Q)
| Infinity (negative : bool).

(** [a >= 0] rounded to a multiple of the spacing of the single-precision
    numbers around it (round to nearest, ties to even). *)
Definition round_magnitude (a : Q) : Q :=
  let e := Z.max (ilog2 a) (-126) in
  (inject_Z (round_half_even (a * pow2 (23 - e))) * pow2 (e - 23))%Q.

(** The single-precision value a Python float becomes in a comparison with
    a tensor element. *)
Definition of_float (t : Q) : value :=
  let negative := (Qnum t <? 0)%Z in
  let m := round_magnitude (Qabs t) in
  if Qle_bool (pow2 128) m then Infinity negative
  else Finite (if negative then (- m)%Q else m).

(** [score >= t] for a finite [score]. *)
Definition ge (score : Q) (t : value) : bool :=
  match t with
  | Finite v => Qle_bool v score
  | Infinity negative => negative
  end.

End Float32.

Section Comparison.

Context (E : Env).

Definition load_text (file_path : str) : M str := read_file file_path.

Definition encode_text (model : Model E) (text : encode_arg) : res (Tensor E) :=
  encode E model text.

Definition calculate_similarity (sop_embedding clause_embeddings : Tensor E)
  : res (list Q) :=
  cos_sim_row E sop_embedding clause_embeddings.

(** The default of the parameter [threshold].  A parameter with a default
    is an [option]: [None] when the caller leaves the argument out. *)
Definition threshold_default : Q := 4 # 10.

(** The loop of [find_relevant_clauses] over [zip(clauses, cosine_scores)]:
    a pair is appended when [score >= threshold], the comparison of a tensor
    element with a Python float. *)
Fixpoint relevant_loop (threshold : Q) (pairs : list (str * Q))
  (relevant : list (str * Q)) : list (str * Q) :=
  match pairs with
  | [] => relevant
  | (clause, score) :: rest =>
      relevant_loop threshold rest
        (if Float32.ge score (Float32.of_float threshold)
         then relevant ++ [(clause, score)]
         else relevant)
  end.

Definition find_relevant_clauses (sop_text : str) (clauses : list str)
  (model : Model E) (threshold : option Q) : res (list (str * Q)) :=
  (let threshold := default threshold_default threshold in
   sop_embedding <- encode_text model (OneText sop_text) ;;
   clause_embeddings <- encode_text model (ManyTexts clauses) ;;
   cosine_scores <- calculate_similarity sop_embedding clause_embeddings ;;
   Ok (relevant_loop threshold (combine clauses cosine_scores) []))%res.

Definition process_single_regulatory_doc (sop_text reg_file_path : str)
  (model : Model E) : M (list (str * Q)) :=
  (regulatory_text <- load_text reg_file_path ;;
   let clauses := extract_clauses regulatory_text in
   lift (find_relevant_clauses sop_text clauses model None))%io.

(** The files folder mode looks at. *)
Definition eligible (filename : str) : bool :=
  endswith (str_lower E filename) (lit "_extracted.txt").

(** The loop of [process_regulatory_docs] over [os.listdir(folder)]. *)
Fixpoint docs_loop (sop_text folder : str) (model : Model E)
  (filenames : list str) (all_relevant_clauses : list (str * list (str * Q)))
  : M (list (str * list (str * Q))) :=
  match filenames with
  | [] => ret all_relevant_clauses
  | filename :: rest =>
      if eligible filename then
        (let file_path := PosixPath.join folder filename in
         relevant_clauses <- process_single_regulatory_doc sop_text file_path model ;;
         docs_loop sop_text folder model rest
           (match relevant_clauses with
            | [] => all_relevant_clauses
            | _ :: _ => all_relevant_clauses ++ [(filename, relevant_clauses)]
            end))%io
      else docs_loop sop_text folder model rest all_relevant_clauses
  end.

Definition MODEL_NAME : str := lit "all-MiniLM-L6-v2".

Definition process_regulatory_docs (sop_file regulatory_docs_folder : str)
  : M (list (str * list (str * Q))) :=
  (model <- lift (SentenceTransformer E MODEL_NAME) ;;
   sop_text <- load_text sop_file ;;
   filenames <- os_listdir regulatory_docs_folder ;;
   docs_loop sop_text regulatory_docs_folder model filenames [])%io.

(** [process_specific_reg_file]: [None] for a path that does not exist,
    otherwise the relevant clauses of the file. *)
Definition process_specific_reg_file (sop_file reg_file_path : str)
  : M (option (list (str * Q))) :=
  (found <- os_path_exists reg_file_path ;;
   if negb found then
     (print (lit "Regulatory file '" ++ reg_file_path ++ lit "' not found!") ;;;
      ret None)
   else
     (model <- lift (SentenceTransformer E MODEL_NAME) ;;
      sop_text <- load_text sop_file ;;
      relevant <- process_single_regulatory_doc sop_text reg_file_path model ;;
      ret (Some relevant)))%io.

End Comparison.

(** ** inference.py *)

(** [f"{score:.3f}"]: three digits after the point, the exact value rounded
    to the nearest thousandth (ties to even), with the sign of the value. *)
Definition format_3f (score : Q) : str :=
  let thousandths := round_half_even (Qabs score * 1000) in
  (if (Qnum score <? 0)%Z then lit "-" else [])
  ++ decimal (Z.to_N (thousandths / 1000)) ++ lit "."
  ++ zero_pad 3 (Z.to_N (thousandths mod 1000)).

(** One relevant clause as the prompt shows it. *)
Definition render_clause (rc : str * Q) : str :=
  let '(clause, score) := rc in
  lit "Clause (score: " ++ format_3f score ++ lit "): " ++ clause.

Definition NL : str := [LF].

Definition PROMPT_HEAD : str :=
  NL ++ lit "You are an expert in regulatory compliance analysis. Your task is to analyze a Standard Operating Procedure (SOP) document and determine its compliance with relevant regulatory clauses."
  ++ NL ++ NL ++ lit "### SOP DOCUMENT:" ++ NL.

Definition INSTRUCTION_1 : str :=
  lit "1. Overview of the SOP document's purpose and scope".
Definition INSTRUCTION_2 : str :=
  lit "2. Analysis of each relevant regulatory clause and how it applies to the SOP".
Definition INSTRUCTION_3 : str :=
  lit "3. Identification of any compliance issues or gaps in the SOP".
Definition INSTRUCTION_4 : str :=
  lit "4. Specific recommendations for adjustments to bring the SOP into full compliance".
Definition INSTRUCTION_5 : str :=
  lit "5. Summary of compliance status".

Definition PROMPT_TAIL : str :=
  NL ++ NL
  ++ lit "Please provide a detailed compliance analysis report that includes:" ++ NL
  ++ INSTRUCTION_1 ++ NL ++ INSTRUCTION_2 ++ NL ++ INSTRUCTION_3 ++ NL
  ++ INSTRUCTION_4 ++ NL ++ INSTRUCTION_5 ++ NL ++ NL
  ++ lit "Format your analysis as a professional compliance report with clear sections and actionable insights."
  ++ NL.

Definition create_prompt (sop_text : str) (relevant_clauses : list (str * Q))
  (reg_name : str) : str :=
  let clauses_text := Str.join (NL ++ NL) (List.map render_clause relevant_clauses) in
  PROMPT_HEAD ++ sop_text ++ NL ++ NL
  ++ lit "### RELEVANT REGULATORY CLAUSES FROM " ++ reg_name ++ lit ":" ++ NL
  ++ clauses_text ++ PROMPT_TAIL.

Section Inference.

Context (E : Env).

Definition max_tokens_default : Z := 4000.
Definition output_dir_default : str := lit "reports".

(** The body of the [try] of [generate_report_with_claude]: look the client
    up, call it, and read [message.content[0].text]. *)
Definition generate_report_body (prompt : str) (max_tokens : Z) : res str :=
  (c <- match client E with
        | Some c => Ok c
        | None => Raise (Exn NameError (lit "name 'client' is not defined"))
        end ;;
   message <- c (lit "claude-3-5-sonnet-20240620") max_tokens [(lit "user", prompt)] ;;
   block <- match content message with
            | b :: _ => Ok b
            | [] => Raise (Exn IndexError (lit "list index out of range"))
            end ;;
   match block with
   | TextBlock text => Ok text
   | ToolUseBlock =>
       Raise (Exn AttributeError (lit "'ToolUseBlock' object has no attribute 'text'"))
   end)%res.

Definition generate_report_with_claude (prompt : str) (max_tokens : option Z)
  : M str :=
  let max_tokens := default max_tokens_default max_tokens in
  try_except (lift (generate_report_body prompt max_tokens))
    (fun e =>
       (print (lit "Error generating report with Claude: " ++ exn_str e) ;;;
        ret (lit "Error: " ++ exn_str e))%io).

(** The file name [save_report] gives a report. *)
Definition report_filename (reg_name : str) (now : datetime) : str :=
  let base_name := fst (PosixPath.splitext (PosixPath.basename reg_name)) in
  let timestamp := strftime now in
  lit "compliance_report_" ++ base_name ++ lit "_" ++ timestamp ++ lit ".txt".

Definition save_report (report reg_name : str) (output_dir : option str)
  : M str :=
  (let output_dir := default output_dir_default output_dir in
   os_makedirs output_dir ;;;
   now <- datetime_now ;;
   let filename := report_filename reg_name now in
   let filepath := PosixPath.join output_dir filename in
   write_file filepath report ;;;
   ret filepath)%io.

Definition analyze_specific_regulation (sop_file reg_file_path : str)
  : M (option str) :=
  (let reg_name := PosixPath.basename reg_file_path in
   relevant_clauses <- process_specific_reg_file E sop_file reg_file_path ;;
   match relevant_clauses with
   | None | Some [] =>
       print (lit "No relevant clauses found in " ++ reg_name ++ lit ".") ;;;
       ret None
   | Some ((_ :: _) as relevant_clauses) =>
       sop_text <- load_text sop_file ;;
       let prompt := create_prompt sop_text relevant_clauses reg_name in
       print (lit "Generating compliance report for " ++ reg_name ++ lit "...") ;;;
       report <- generate_report_with_claude prompt None ;;
       report_path <- save_report report reg_name None ;;
       print (lit "Report saved to " ++ report_path) ;;;
       ret (Some report_path)
   end)%io.

(** The loop of [analyze_all_regulations] over the aggregated results. *)
Fixpoint reports_loop (sop_text : str) (results : list (str * list (str * Q)))
  (report_paths : list str) : M (list str) :=
  match results with
  | [] => ret report_paths
  | (doc_name, clauses) :: rest =>
      (let prompt := create_prompt sop_text clauses doc_name in
       print (lit "Generating compliance report for " ++ doc_name ++ lit "...") ;;;
       report <- generate_report_with_claude prompt None ;;
       report_path <- save_report report doc_name None ;;
       print (lit "Report saved to " ++ report_path) ;;;
       reports_loop sop_text rest (report_paths ++ [report_path]))%io
  end.

Definition analyze_all_regulations (sop_file regulatory_folder : str)
  : M (list str) :=
  (results <- process_regulatory_docs E sop_file regulatory_folder ;;
   match results with
   | [] =>
       print (lit "No relevant clauses found in any regulatory document.") ;;;
       ret []
   | _ :: _ =>
       sop_text <- load_text sop_file ;;
       reports_loop sop_text results []
   end)%io.

End Inference.


(** * Predicates of the specification *)

Definition whitespace_only (s : str) : Prop :=
  Forall (fun c => isspace c = true) s.

(** [s] contains two consecutive line feeds nowhere. *)
Definition no_blank_line (s : str) : Prop :=
  forall pre post, s <> pre ++ [LF; LF] ++ post.

(** The decision of [no_blank_line]. *)
Fixpoint has_blank_line (s : str) : bool :=
  match s with
  | [] => false
  | c :: t =>
      match t with
      | d :: _ => ((c =? LF) && (d =? LF)) || has_blank_line t
      | [] => false
      end
  end.

(** The test that keeps a (clause, score) pair: [score >= threshold], made
    in single precision. *)
Definition clears (threshold : Q) (pair : str * Q) : bool :=
  Float32.ge (snd pair) (Float32.of_float threshold).

(** A number a single-precision tensor element can hold. *)
Definition is_float32 (s : Q) : Prop :=
  exists v, Float32.of_float s = Float32.Finite v /\ (v == s)%Q.


(** [zero_pad width n] is exactly [width] digits. *)
Definition pads_to (width : nat) (n : N) : bool :=
  (length (zero_pad width n) =? width)%nat && forallb isdigit (zero_pad width n).

(** Only dots. *)
Definition all_dots (s : str) : Prop := Forall (fun c => c = PosixPath.EXTSEP) s.

(** [base] is [reg_name] without its directory prefix and without its
    extension.  The prefix [dir] is empty or ends with the separator and
    the rest has no separator.  The extension [ext] is the last dot of the
    rest and what follows it, provided something other than a dot stands
    before that dot; otherwise there is no extension. *)
Definition base_name_of (reg_name base : str) : Prop :=
  exists dir ext,
    reg_name = dir ++ base ++ ext /\
    (dir = [] \/ exists d, dir = d ++ [PosixPath.SEP]) /\
    ~ In PosixPath.SEP (base ++ ext) /\
    ((exists e, ext = PosixPath.EXTSEP :: e /\ ~ In PosixPath.EXTSEP e /\
                ~ all_dots base)
     \/ (ext = [] /\
         forall root e, base = root ++ PosixPath.EXTSEP :: e ->
                        ~ In PosixPath.EXTSEP e -> all_dots root)).



(** The text before the first [c] and the text after it. *)
Fixpoint partition (c : char) (s : str) : option (str * str) :=
  match s with
  | [] => None
  | d :: t =>
      if d =? c then Some ([], t)
      else match partition c t with
           | Some (a, b) => Some (d :: a, b)
           | None => None
           end
  end.

(** The number a text of the shape [DIGITS.DDD], with or without a minus
    sign in front, denotes: whether the sign is there, and the number of
    thousandths. *)
Definition fixed3_value (s : str) : option (bool * N) :=
  let negative := match s with c :: _ => c =? 45 | [] => false end in
  let body := if negative then drop 1 s else s in
  match partition PosixPath.EXTSEP body with
  | Some (whole, fraction) =>
      if truthy whole && (length fraction =? 3)%nat then
        match digits_value 0 whole, digits_value 0 fraction with
        | Some a, Some b => Some (negative, 1000 * a + b)
        | _, _ => None
        end
      else None
  | None => None
  end.

(** The clause block of the prompt as the specification words it: nothing
    for no clause, every clause rendered after the pattern
    [Clause (score: S): TEXT], and a blank line between consecutive
    clauses. *)
Inductive clause_block (render : str * Q -> str) : list (str * Q) -> str -> Prop :=
| block_none : clause_block render [] []
| block_last rc : clause_block render [rc] (render rc)
| block_more rc rest block :
    rest <> [] -> clause_block render rest block ->
    clause_block render (rc :: rest) (render rc ++ [LF; LF] ++ block).

(** Truth value of a list: [bool(l)]. *)
Definition nonempty {A} (l : list A) : bool :=
  match l with [] => false | _ :: _ => true end.



(** The line [generate_report_with_claude] prints for a caught error. *)
Definition error_line (e : exn) : str :=
  lit "Error generating report with Claude: " ++ exn_str e.





(** * Fixtures

    A small environment and world on which the statements below are run. *)

Module Fixture.

(** The score the toy similarity gives a clause: an eighth per character,
    at most one. *)
Definition score_of (clause : str) : Q :=
  Z.of_nat (Nat.min (length clause) 8) # 8.

(** The toy similarity: the clause vectors are the scores; an empty batch
    has no vector to multiply with and the call raises. *)
Definition cos_sim (a b : list Q) : res (list Q) :=
  match b with
  | [] => Raise (Exn LibraryError
                   (lit "mat1 and mat2 shapes cannot be multiplied (1x384 and 0x1)"))
  | _ :: _ => Ok b
  end.

(** A client that answers every prompt with one text block. *)
Definition echo_client : Client :=
  fun _ _ _ => Ok {| content := [TextBlock (lit "REPORT")] |}.


(** A client whose answer holds a lone surrogate. *)
Definition surrogate_client : Client :=
  fun _ _ _ => Ok {| content := [TextBlock [55357]] |}.

(** A client whose call raises a provider error. *)
Definition failing_client : Client :=
  fun _ _ _ => Raise (Exn LibraryError (lit "overloaded")).

(** ASCII lower case. *)
Definition ascii_lower (s : str) : str :=
  List.map (fun c => if (65 <=? c) && (c <=? 90) then c + 32 else c) s.

Definition env_scoring (score : str -> Q) (c : option Client) : Env := {|
  Tensor := list Q;
  Model := unit;
  SentenceTransformer := fun _ => Ok tt;
  encode := fun _ arg =>
    match arg with
    | OneText _ => Ok []
    | ManyTexts texts => Ok (List.map score texts)
    end;
  cos_sim_row := cos_sim;
  client := c;
  str_lower := ascii_lower |}.

Definition env_with (c : option Client) : Env := env_scoring score_of c.

(** The single-precision number nearest to 0.7; it is below 0.7. *)
Definition nearest_to_0_7 : Q := 11744051 # 16777216.

Definition env : Env := env_with (Some echo_client).

Definition noon : datetime := Datetime 2024 3 9 12 0 5.

Definition SOP : str := lit "Wash hands before handling samples.".

(** A folder with three eligible files (the second has no clause that
    reaches the default threshold) and one file that is not eligible. *)
Definition world : World := {|
  files :=
    <[lit "sop.txt" := SOP]>
    (<[lit "regs/a_extracted.txt" := lit "Wash hands with soap." ++ [LF; LF] ++ lit "Dry"]>
    (<[lit "regs/b_extracted.txt" := lit "Dry"]>
    (<[lit "regs/c_EXTRACTED.TXT" := lit "Keep the bench clean."]>
    (<[lit "regs/notes.md" := lit "Not a regulation, but long enough."]> ∅))));
  dirs :=
    <[lit "regs" := [lit "a_extracted.txt"; lit "notes.md";
                     lit "b_extracted.txt"; lit "c_EXTRACTED.TXT"]]> ∅;
  stdout := [];
  clock := fun _ => noon;
  reads := 0 |}.



(** A folder whose second eligible file is empty. *)
Definition world3 : World := {|
  files :=
    <[lit "sop.txt" := SOP]>
    (<[lit "regs/a_extracted.txt" := lit "Wash hands with soap."]>
    (<[lit "regs/b_extracted.txt" := []]>
    (<[lit "regs/c_extracted.txt" := lit "Keep the bench clean."]> ∅)));
  dirs :=
    <[lit "regs" := [lit "a_extracted.txt"; lit "b_extracted.txt";
                     lit "c_extracted.txt"]]> ∅;
  stdout := [];
  clock := fun _ => noon;
  reads := 0 |}.

End Fixture.

(** * Further predicates *)

(** [c] occurs in [T] as a run of consecutive characters. *)
Definition is_infix (c T : str) : Prop := exists pre post, T = pre ++ c ++ post.

(** The characters of a text that are not whitespace, in order. *)
Definition nonspace (s : str) : str :=
  List.filter (fun c => negb (isspace c)) s.

(** A clause as [extract_clauses] returns it: not empty, nothing to trim,
    no blank line inside. *)
Definition clause_shaped (c : str) : Prop :=
  c <> [] /\ strip c = c /\ no_blank_line c.

(** * The rest of comparison.py, outputs.py and parser.py *)

(** [os.path.isdir(path)] *)
Definition os_path_isdir (path : str) : M bool :=
  fun w => (Ok (bool_decide (is_Some (dirs w !! path))), w).



Module Outputs.

Section Outputs.

Context (E : Env).

Definition SUFFIX : str := lit "_extracted.txt".

(** [get_available_regulations] of outputs.py. *)
Definition get_available_regulations : M (list str) :=
  (let reg_folder := PosixPath.join (lit "parsed") (lit "regulations") in
   isdir <- os_path_isdir reg_folder ;;
   if isdir then
     (names <- os_listdir reg_folder ;;
      ret (List.filter (fun f => endswith f SUFFIX) names))
   else ret [])%io.

(** [analyze_regulation] of outputs.py; the selection of the drop-down is
    [None] or a string. *)
Definition analyze_regulation (reg_file : option str) : M str :=
  match reg_file with
  | None | Some [] => ret (lit "Please select a regulation document.")
  | Some ((_ :: _) as reg_file) =>
      (let sop_folder := PosixPath.join (lit "parsed") (lit "sop") in
       let sop_file := PosixPath.join sop_folder (lit "original_extracted.txt") in
       found <- os_path_exists sop_file ;;
       if negb found then
         ret (lit "Default SOP file '" ++ sop_file ++ lit "' not found!")
       else
         (let reg_path :=
            PosixPath.join (PosixPath.join (lit "parsed") (lit "regulations")) reg_file in
          relevant_clauses <- process_specific_reg_file E sop_file reg_path ;;
          match relevant_clauses with
          | None | Some [] =>
              ret (lit "No relevant clauses found between the SOP and the regulation.")
          | Some ((_ :: _) as relevant_clauses) =>
              sop_text <- load_text sop_file ;;
              let prompt := create_prompt sop_text relevant_clauses reg_file in
              report <- generate_report_with_claude E prompt None ;;
              report_path <- save_report report reg_file None ;;
              ret (lit "Analysis complete! Report saved to " ++ report_path
                   ++ NL ++ NL ++ report)
          end))%io
  end.

End Outputs.

End Outputs.

Module Parser.

(** The document libraries of parser.py: [fitz.open(path)] read as the
    texts [page.get_text()] of its pages, and [Document(path)] read as the
    texts of its paragraphs. *)
Record Libs := {
  fitz_open : str -> res (list str);
  Document : str -> res (list str) }.

Section Parser.

Context (L : Libs).

(** The loop of [extract_text_from_pdf] over the page numbers. *)
Fixpoint pdf_pages_loop (pages : list str) (page_number : N) (full_text : str)
  : str :=
  match pages with
  | [] => full_text
  | page_text :: rest =>
      pdf_pages_loop rest (page_number + 1)
        ((full_text
          ++ (NL ++ lit "--- Page " ++ decimal (page_number + 1) ++ lit " Text ---" ++ NL))
         ++ page_text)
  end.

Definition extract_text_from_pdf (pdf_path : str) : M str :=
  (opened <- try_except
               (doc <- lift (fitz_open L pdf_path) ;; ret (Some doc))
               (fun e =>
                  print (lit "Error opening PDF '" ++ pdf_path ++ lit "': " ++ exn_str e) ;;;
                  ret None) ;;
   match opened with
   | None => ret []
   | Some doc => ret (pdf_pages_loop doc 0 [])
   end)%io.

(** The loop of [extract_text_from_docx] over the paragraphs. *)
Fixpoint docx_paragraphs_loop (paragraphs : list str) (full_text : str) : str :=
  match paragraphs with
  | [] => full_text
  | para :: rest => docx_paragraphs_loop rest (full_text ++ (para ++ NL))
  end.

Definition extract_text_from_docx (docx_path : str) : M str :=
  (opened <- try_except
               (doc <- lift (Document L docx_path) ;; ret (Some doc))
               (fun e =>
                  print (lit "Error opening DOCX '" ++ docx_path ++ lit "': " ++ exn_str e) ;;;
                  ret None) ;;
   match opened with
   | None => ret []
   | Some doc => ret (docx_paragraphs_loop doc [])
   end)%io.

End Parser.

End Parser.

(** A paragraph that is not empty and has no line break inside. *)
Definition plain_paragraph (para : str) : Prop := para <> [] /\ ~ In LF para.

Module Fixture2.

Definition libs : Parser.Libs := {|
  Parser.fitz_open := fun path =>
    if endswith path (lit ".pdf") then Ok [lit "  "; []]
    else Raise (Exn LibraryError (lit "cannot open"));
  Parser.Document := fun path =>
    if endswith path (lit ".docx")
    then Ok [lit "1. Wash hands."; lit "2. Dry hands."]
    else Raise (Exn LibraryError (lit "Package not found")) |}.

(** The folders the interface of outputs.py reads. *)
Definition ui_world : World := {|
  files :=
    <[lit "parsed/sop/original_extracted.txt" := Fixture.SOP]>
    (<[lit "parsed/regulations/a_extracted.txt" := lit "Wash hands with soap."]>
    (<[lit "parsed/regulations/B_EXTRACTED.TXT" := lit "Keep the bench clean."]> ∅));
  dirs :=
    <[lit "parsed/regulations" := [lit "a_extracted.txt"; lit "B_EXTRACTED.TXT";
                                   lit "readme.md"]]> ∅;
  stdout := [];
  clock := fun n => Datetime 2024 3 9 12 0 (N.of_nat n);
  reads := 0 |}.

End Fixture2.

(** Two worlds in which every read gives the same answer: the same files,
    and the same paths taken by directories. *)
Definition same_reads (w1 w2 : World) : Prop :=
  files w1 = files w2 /\
  forall p, is_Some (dirs w1 !! p) <-> is_Some (dirs w2 !! p).

(** The directories after [os.makedirs(d, exist_ok=True)] succeeded. *)
Definition dirs_with (d : str) (w : World) : gmap str (list str) :=
  match dirs w !! d with
  | Some _ => dirs w
  | None =>
      match makedirs_plan w d (PosixPath.ancestors d) with
      | inr made => make_dirs (d :: made) (dirs w)
      | inl _ => dirs w
      end
  end.

(** Nothing stands in the way of [os.makedirs(d, exist_ok=True)] above
    [d]: [d] is a directory, or the nearest path above it that exists is
    not a regular file. *)
Definition can_makedirs (d : str) (w : World) : bool :=
  match dirs w !! d with
  | Some _ => true
  | None =>
      match makedirs_plan w d (PosixPath.ancestors d) with
      | inr _ => true
      | inl _ => false
      end
  end.

(** The world a successful [save_report] leaves: the report at [path], the
    output directory [d] present, one more reading of the clock. *)
Definition saved_world (d path report : str) (w : World) : World :=
  MkWorld (<[path := report]> (files w)) (dirs_with d w) (stdout w) (clock w)
    (S (reads w)).

(** Two worlds that differ at most in what was printed. *)
Definition only_printed (w w' : World) : Prop :=
  files w' = files w /\ dirs w' = dirs w /\
  clock w' = clock w /\ reads w' = reads w.

(** The text of a returned result, the empty text for an exception. *)
Definition pdf_text_of (outcome : res (list N) * World) : list N :=
  match fst outcome with
  | Ok text => text
  | Raise _ => []
  end.

(** * Properties *)

(** ** Rounding to the nearest integer *)

Section Rounding.

Local Open Scope Z_scope.

Lemma round_half_even_spec (x : Q) :
  let r := round_half_even x in
  let n := Qnum x in
  let d := Zpos (Qden x) in
  2 * Z.abs (n - r * d) <= d /\
  (2 * Z.abs (n - r * d) = d -> Z.even r = true).
Proof.
  unfold round_half_even. cbv zeta.
  set (n := Qnum x). set (d := Zpos (Qden x)).
  assert (Hd : 0 < d) by (unfold d; lia).
  pose proof (Z.div_mod n d ltac:(lia)) as Hdm.
  pose proof (Z.mod_pos_bound n d Hd) as Hb.
  set (fl := n / d) in *. set (m := n mod d) in *.
  destruct (Z.compare_spec (2 * m) d) as [He|Hl|Hg].
  - destruct (Z.even fl) eqn:Hev.
    + split; [nia|]. intros _. exact Hev.
    + split; [nia|]. intros _.
      rewrite Z.even_add, Hev. reflexivity.
  - split; [nia | nia].
  - split; [nia | nia].
Qed.

Lemma round_half_even_monotone (x y : Q) :
  (x <= y)%Q -> round_half_even x <= round_half_even y.
Proof.
  intros Hxy. unfold Qle in Hxy.
  destruct (round_half_even_spec x) as [Hx Hxe].
  destruct (round_half_even_spec y) as [Hy Hye].
  cbv zeta in *.
  set (rx := round_half_even x) in *. set (ry := round_half_even y) in *.
  set (a := Qnum x) in *. set (b := Zpos (Qden x)) in *.
  set (c := Qnum y) in *. set (d := Zpos (Qden y)) in *.
  assert (Hb : 0 < b) by (unfold b; lia).
  assert (Hd : 0 < d) by (unfold d; lia).
  destruct (Z_le_gt_dec rx ry) as [|Hgt]; [assumption|exfalso].
  assert (H1 : 2 * (rx * b - a) <= b) by lia.
  assert (H2 : 2 * (c - ry * d) <= d) by lia.
  assert (H3 : 2 * rx * b * d <= 2 * a * d + b * d) by nia.
  assert (H4 : 2 * c * b <= 2 * ry * d * b + d * b) by nia.
  assert (H5 : 2 * rx * (b * d) <= 2 * (ry + 1) * (b * d)) by nia.
  assert (Hbd : 0 < b * d) by nia.
  assert (H6 : rx = ry + 1) by nia.
  assert (Hx2 : 2 * (rx * b - a) = b) by nia.
  assert (Hy2 : 2 * (c - ry * d) = d) by nia.
  assert (Ex : Z.even rx = true) by (apply Hxe; lia).
  assert (Ey : Z.even ry = true) by (apply Hye; lia).
  rewrite H6, Z.even_add, Ey in Ex. discriminate Ex.
Qed.

Lemma round_half_even_nonneg (x : Q) : (0 <= x)%Q -> 0 <= round_half_even x.
Proof.
  intros H. change 0 with (round_half_even 0).
  now apply round_half_even_monotone.
Qed.

End Rounding.

(** ** Single precision *)

Section SinglePrecision.

Import Float32.
Local Open Scope Q_scope.

Lemma pow2_pos z : 0 < pow2 z.
Proof. apply Qpower_0_lt. reflexivity. Qed.

Lemma pow2_plus x y : pow2 (x + y) == pow2 x * pow2 y.
Proof. apply Qpower_plus. discriminate. Qed.

Lemma pow2_le x y : (x <= y)%Z -> pow2 x <= pow2 y.
Proof. intros H. apply Qpower_le_compat_l; [exact H | discriminate]. Qed.

Lemma pow2_lt_inv x y : pow2 x < pow2 y -> (x < y)%Z.
Proof. intros H. eapply Qpower_lt_compat_l_inv; [exact H | reflexivity]. Qed.

Lemma pow2_inject z : (0 <= z)%Z -> inject_Z (2 ^ z) == pow2 z.
Proof. intros H. unfold pow2. now rewrite Zpower_Qpower. Qed.

Lemma num_den (a : Q) : a * inject_Z (Zpos (Qden a)) == inject_Z (Qnum a).
Proof. destruct a as [n d]. unfold Qeq. simpl. rewrite Pos.mul_1_r. ring. Qed.

Lemma ilog2_spec a : 0 < a -> pow2 (ilog2 a) <= a /\ a < pow2 (ilog2 a + 1).
Proof.
  intros Ha.
  assert (Hn : (0 < Qnum a)%Z).
  { destruct a as [n d]. unfold Qlt in Ha. simpl in *. lia. }
  pose proof (Z.log2_spec (Qnum a) Hn) as [Hn1 Hn2].
  pose proof (Z.log2_spec (Zpos (Qden a)) ltac:(lia)) as [Hd1 Hd2].
  pose proof (Z.log2_nonneg (Qnum a)) as Hln.
  pose proof (Z.log2_nonneg (Zpos (Qden a))) as Hld.
  set (ln := Z.log2 (Qnum a)) in *. set (ld := Z.log2 (Zpos (Qden a))) in *.
  rewrite Zle_Qle, (pow2_inject ln Hln) in Hn1.
  rewrite Zlt_Qlt, (pow2_inject (Z.succ ln) ltac:(lia)) in Hn2.
  rewrite Zle_Qle, (pow2_inject ld Hld) in Hd1.
  rewrite Zlt_Qlt, (pow2_inject (Z.succ ld) ltac:(lia)) in Hd2.
  pose proof (num_den a) as Hnd.
  set (n := inject_Z (Qnum a)) in *. set (d := inject_Z (Zpos (Qden a))) in *.
  assert (Hup : a < pow2 (ln - ld + 1)).
  { pose proof (pow2_plus (ln - ld + 1) ld) as Hp.
    replace (ln - ld + 1 + ld)%Z with (Z.succ ln) in Hp by lia.
    pose proof (pow2_pos (ln - ld + 1)). pose proof (pow2_pos ld).
    destruct (Qlt_le_dec a (pow2 (ln - ld + 1))) as [|Hge]; [assumption|exfalso].
    nra. }
  assert (Hlow : pow2 (ln - ld - 1) < a).
  { pose proof (pow2_plus (ln - ld - 1) (Z.succ ld)) as Hp.
    replace (ln - ld - 1 + Z.succ ld)%Z with ln in Hp by lia.
    pose proof (pow2_pos (ln - ld - 1)). pose proof (pow2_pos (Z.succ ld)).
    destruct (Qlt_le_dec (pow2 (ln - ld - 1)) a) as [|Hge]; [assumption|exfalso].
    nra. }
  unfold ilog2. fold ln ld.
  destruct (Qle_bool (pow2 (ln - ld)) a) eqn:Hc.
  - apply Qle_bool_iff in Hc. split; assumption.
  - assert (Hlt : a < pow2 (ln - ld)).
    { apply Qnot_le_lt. intros H. apply Qle_bool_iff in H. congruence. }
    replace (ln - ld - 1 + 1)%Z with (ln - ld)%Z by lia.
    split; [now apply Qlt_le_weak | assumption].
Qed.

Lemma ilog2_monotone a b : 0 < a -> a <= b -> (ilog2 a <= ilog2 b)%Z.
Proof.
  intros Ha Hab.
  destruct (ilog2_spec a Ha) as [Ha1 _].
  destruct (ilog2_spec b ltac:(lra)) as [_ Hb2].
  assert (H : pow2 (ilog2 a) < pow2 (ilog2 b + 1)) by lra.
  apply pow2_lt_inv in H. lia.
Qed.

Lemma round_scaled_nonneg a z : 0 <= a -> (0 <= round_half_even (a * pow2 z))%Z.
Proof.
  intros Ha. apply round_half_even_nonneg.
  pose proof (pow2_pos z). nra.
Qed.

Lemma round_magnitude_nonneg a : 0 <= a -> 0 <= round_magnitude a.
Proof.
  intros Ha. unfold round_magnitude. cbv zeta.
  set (e := Z.max (ilog2 a) (-126)).
  pose proof (round_scaled_nonneg a (23 - e) Ha) as Hk.
  apply Qmult_le_0_compat; [|apply Qlt_le_weak, pow2_pos].
  change 0 with (inject_Z 0). now rewrite <- Zle_Qle.
Qed.

Lemma round_pow2_23 : round_half_even (pow2 23) = (2 ^ 23)%Z.
Proof. reflexivity. Qed.

Lemma round_pow2_24 : round_half_even (pow2 24) = (2 ^ 24)%Z.
Proof. reflexivity. Qed.

Lemma round_magnitude_upper a :
  0 < a -> round_magnitude a <= pow2 (Z.max (ilog2 a) (-126) + 1).
Proof.
  intros Ha. destruct (ilog2_spec a Ha) as [_ Hup].
  unfold round_magnitude. cbv zeta.
  set (e := Z.max (ilog2 a) (-126)).
  assert (He : pow2 (ilog2 a + 1) <= pow2 (e + 1)) by (apply pow2_le; lia).
  pose proof (pow2_plus (e + 1) (23 - e)) as Hp.
  replace (e + 1 + (23 - e))%Z with 24%Z in Hp by lia.
  pose proof (pow2_pos (23 - e)) as Hs.
  assert (Hx : a * pow2 (23 - e) <= pow2 24) by nra.
  apply round_half_even_monotone in Hx. rewrite round_pow2_24 in Hx.
  rewrite Zle_Qle, (pow2_inject 24 ltac:(lia)) in Hx.
  pose proof (pow2_plus 24 (e - 23)) as Hq.
  replace (24 + (e - 23))%Z with (e + 1)%Z in Hq by lia.
  pose proof (pow2_pos (e - 23)). nra.
Qed.

Lemma round_magnitude_lower a :
  0 < a -> (-126 <= ilog2 a)%Z -> pow2 (ilog2 a) <= round_magnitude a.
Proof.
  intros Ha Hn. destruct (ilog2_spec a Ha) as [Hlow _].
  unfold round_magnitude. cbv zeta.
  replace (Z.max (ilog2 a) (-126)) with (ilog2 a) by lia.
  set (e := ilog2 a) in *.
  pose proof (pow2_plus e (23 - e)) as Hp.
  replace (e + (23 - e))%Z with 23%Z in Hp by lia.
  pose proof (pow2_pos (23 - e)) as Hs.
  assert (Hx : pow2 23 <= a * pow2 (23 - e)) by nra.
  apply round_half_even_monotone in Hx. rewrite round_pow2_23 in Hx.
  rewrite Zle_Qle, (pow2_inject 23 ltac:(lia)) in Hx.
  pose proof (pow2_plus 23 (e - 23)) as Hq.
  replace (23 + (e - 23))%Z with e in Hq by lia.
  pose proof (pow2_pos (e - 23)). nra.
Qed.

Lemma round_magnitude_zero a : a == 0 -> round_magnitude a == 0.
Proof.
  intros Ha. unfold round_magnitude. cbv zeta.
  set (e := Z.max (ilog2 a) (-126)).
  assert (Hk : round_half_even (a * pow2 (23 - e)) = 0%Z).
  { apply Z.le_antisymm.
    - change 0%Z with (round_half_even 0). apply round_half_even_monotone.
      rewrite Ha. lra.
    - apply round_scaled_nonneg. rewrite Ha. lra. }
  rewrite Hk. apply Qmult_0_l.
Qed.

Lemma round_magnitude_monotone a b :
  0 <= a -> a <= b -> round_magnitude a <= round_magnitude b.
Proof.
  intros Ha Hab.
  destruct (Qlt_le_dec 0 a) as [Hpos|Hzero].
  - pose proof (ilog2_monotone a b Hpos Hab) as Hl.
    assert (Hb : 0 < b) by lra.
    destruct (Z.eq_dec (Z.max (ilog2 a) (-126)) (Z.max (ilog2 b) (-126))) as [He|Hne].
    + unfold round_magnitude. cbv zeta. rewrite He.
      set (e := Z.max (ilog2 b) (-126)).
      pose proof (pow2_pos (23 - e)). pose proof (pow2_pos (e - 23)).
      assert (Hx : a * pow2 (23 - e) <= b * pow2 (23 - e)) by nra.
      apply round_half_even_monotone in Hx. rewrite Zle_Qle in Hx. nra.
    + pose proof (round_magnitude_upper a Hpos) as Hu.
      pose proof (round_magnitude_lower b Hb ltac:(lia)) as Hlo.
      assert (Hp : pow2 (Z.max (ilog2 a) (-126) + 1) <= pow2 (ilog2 b))
        by (apply pow2_le; lia).
      lra.
  - rewrite (round_magnitude_zero a) by lra.
    apply round_magnitude_nonneg. lra.
Qed.

Lemma negative_spec t : (Qnum t <? 0)%Z = true <-> t < 0.
Proof.
  rewrite Z.ltb_lt. destruct t as [n d]. unfold Qlt. simpl. lia.
Qed.

(** Rounding the threshold is monotone: what passes the higher threshold
    passes the lower one. *)
Lemma ge_monotone score low high :
  low <= high -> ge score (of_float high) = true -> ge score (of_float low) = true.
Proof.
  intros Hle. unfold of_float. cbv zeta.
  destruct (Qnum high <? 0)%Z eqn:Hh; destruct (Qnum low <? 0)%Z eqn:Hl.
  - apply negative_spec in Hh, Hl.
    assert (Hm : round_magnitude (Qabs high) <= round_magnitude (Qabs low)).
    { apply round_magnitude_monotone; [apply Qabs_nonneg|].
      rewrite !Qabs_neg by lra. lra. }
    destruct (Qle_bool (pow2 128) (round_magnitude (Qabs low))) eqn:Ol; [reflexivity|].
    destruct (Qle_bool (pow2 128) (round_magnitude (Qabs high))) eqn:Oh.
    + apply Qle_bool_iff in Oh.
      assert (O : pow2 128 <= round_magnitude (Qabs low)) by lra.
      apply Qle_bool_iff in O. congruence.
    + simpl. rewrite !Qle_bool_iff. lra.
  - apply negative_spec in Hh.
    assert (Hl' : ~ low < 0) by (rewrite <- negative_spec; congruence).
    exfalso. lra.
  - apply negative_spec in Hl.
    assert (Hh' : ~ high < 0) by (rewrite <- negative_spec; congruence).
    pose proof (round_magnitude_nonneg (Qabs high) (Qabs_nonneg _)).
    pose proof (round_magnitude_nonneg (Qabs low) (Qabs_nonneg _)).
    destruct (Qle_bool (pow2 128) (round_magnitude (Qabs high))); [discriminate|].
    destruct (Qle_bool (pow2 128) (round_magnitude (Qabs low))); [reflexivity|].
    simpl. rewrite !Qle_bool_iff. lra.
  - assert (Hh' : ~ high < 0) by (rewrite <- negative_spec; congruence).
    assert (Hl' : ~ low < 0) by (rewrite <- negative_spec; congruence).
    assert (Hm : round_magnitude (Qabs low) <= round_magnitude (Qabs high)).
    { apply round_magnitude_monotone; [apply Qabs_nonneg|].
      rewrite !Qabs_pos by lra. lra. }
    destruct (Qle_bool (pow2 128) (round_magnitude (Qabs high))) eqn:Oh; [discriminate|].
    destruct (Qle_bool (pow2 128) (round_magnitude (Qabs low))) eqn:Ol.
    + apply Qle_bool_iff in Ol.
      assert (O : pow2 128 <= round_magnitude (Qabs high)) by lra.
      apply Qle_bool_iff in O. congruence.
    + simpl. rewrite !Qle_bool_iff. lra.
Qed.

End SinglePrecision.

(** ** Decimal numerals *)

Lemma digits_value_uint d : forall acc,
  digits_value acc (uint_chars d)
  = Some (match acc with
          | 0 => N.of_uint d
          | Npos p => Npos (Pos.of_uint_acc d p)
          end).
Proof.
  induction d; intros acc; cbn [uint_chars digits_value];
    [destruct acc; reflexivity | ..];
    match goal with
    | |- context [isdigit ?c] => change (isdigit c) with true
    end; cbv iota; rewrite IHd; destruct acc as [|p]; try reflexivity;
    match goal with
    | |- context [10 * N.pos p + ?k] =>
        destruct (10 * N.pos p + k) as [|q] eqn:E; [lia|]
    end;
    cbn [Pos.of_uint_acc]; do 3 f_equal; lia.
Qed.

Lemma digits_value_decimal n : digits_value 0 (decimal n) = Some n.
Proof.
  unfold decimal. rewrite digits_value_uint. now rewrite DecimalN.Unsigned.of_to.
Qed.

Lemma digits_value_zeros k s : digits_value 0 (repeat 48 k ++ s) = digits_value 0 s.
Proof. induction k; [reflexivity|]. exact IHk. Qed.

Lemma digits_value_zero_pad width n : digits_value 0 (zero_pad width n) = Some n.
Proof. unfold zero_pad. now rewrite digits_value_zeros, digits_value_decimal. Qed.

(** ** Trimming *)

Lemma lstrip_whitespace_only s : whitespace_only s -> lstrip s = [].
Proof.
  induction 1 as [|c t Hc _ IH]; simpl; [reflexivity|].
  now rewrite Hc.
Qed.

Lemma lstrip_nil_whitespace_only s : lstrip s = [] -> whitespace_only s.
Proof.
  induction s as [|c t IH]; simpl; [constructor|].
  destruct (isspace c) eqn:Hc; [|discriminate].
  intros H. constructor; [exact Hc | exact (IH H)].
Qed.

Lemma lstrip_head s c t : lstrip s = c :: t -> isspace c = false.
Proof.
  induction s as [|d u IH]; simpl; [discriminate|].
  destruct (isspace d) eqn:Hd; [exact IH|].
  intros [= <- _]. exact Hd.
Qed.

Lemma lstrip_fixed c t : isspace c = false -> lstrip (c :: t) = c :: t.
Proof. intros H. simpl. now rewrite H. Qed.

Lemma lstrip_idem s : lstrip (lstrip s) = lstrip s.
Proof.
  destruct (lstrip s) as [|c t] eqn:Hs; [reflexivity|].
  apply lstrip_fixed. eapply lstrip_head; eauto.
Qed.

Lemma lstrip_snoc s c : isspace c = false -> lstrip (s ++ [c]) = lstrip s ++ [c].
Proof.
  intros Hc. induction s as [|d u IH]; simpl.
  - now rewrite Hc.
  - destruct (isspace d); [exact IH | reflexivity].
Qed.

Lemma rstrip_nil : rstrip [] = [].
Proof. reflexivity. Qed.

Lemma rstrip_idem s : rstrip (rstrip s) = rstrip s.
Proof. unfold rstrip. now rewrite rev_involutive, lstrip_idem. Qed.

Lemma rstrip_cons c t : isspace c = false -> rstrip (c :: t) = c :: rstrip t.
Proof.
  intros Hc. unfold rstrip. simpl rev at 2.
  rewrite lstrip_snoc by exact Hc.
  now rewrite rev_app_distr.
Qed.

Lemma strip_whitespace_only s : whitespace_only s -> strip s = [].
Proof. intros H. unfold strip. now rewrite lstrip_whitespace_only. Qed.

Lemma strip_nil_whitespace_only s : strip s = [] -> whitespace_only s.
Proof.
  unfold strip. intros H.
  destruct (lstrip s) as [|c t] eqn:Hs.
  - now apply lstrip_nil_whitespace_only.
  - rewrite rstrip_cons in H by (eapply lstrip_head; eauto). discriminate.
Qed.

Lemma strip_idem s : strip (strip s) = strip s.
Proof.
  unfold strip at 2 3.
  destruct (lstrip s) as [|c t] eqn:Hs; [reflexivity|].
  assert (Hc : isspace c = false) by (eapply lstrip_head; eauto).
  rewrite (rstrip_cons c t Hc). unfold strip.
  rewrite lstrip_fixed by exact Hc.
  rewrite rstrip_cons by exact Hc.
  now rewrite rstrip_idem.
Qed.

Lemma truthy_false (s : str) : truthy s = false <-> s = [].
Proof. destruct s; simpl; split; congruence. Qed.

Lemma truthy_true (s : str) : truthy s = true <-> s <> [].
Proof. destruct s; simpl; split; congruence. Qed.

(** ** Splitting on blank lines *)

(** The induction that follows the recursion of [split_nn]. *)
Lemma split_nn_ind (P : str -> Prop) :
  P [] ->
  (forall c, P [c]) ->
  (forall t, P t -> P (LF :: LF :: t)) ->
  (forall c d t, (c =? LF) && (d =? LF) = false -> P (d :: t) -> P (c :: d :: t)) ->
  forall s, P s.
Proof.
  intros Hnil Hone Hsep Hstep.
  assert (H : forall n s, (length s <= n)%nat -> P s).
  { induction n as [|n IH]; intros s Hlen.
    - destruct s; [exact Hnil | simpl in Hlen; lia].
    - destruct s as [|c [|d t]]; [exact Hnil | apply Hone |].
      simpl in Hlen.
      destruct ((c =? LF) && (d =? LF)) eqn:Hcd.
      + apply andb_true_iff in Hcd as [Hc Hd].
        apply N.eqb_eq in Hc, Hd. subst c d.
        apply Hsep, IH. lia.
      + apply Hstep; [exact Hcd|]. apply IH. simpl. lia. }
  intros s. now apply (H (length s)).
Qed.

Lemma split_nn_sep t : split_nn (LF :: LF :: t) = [] :: split_nn t.
Proof. reflexivity. Qed.

Lemma split_nn_step c d t :
  (c =? LF) && (d =? LF) = false ->
  split_nn (c :: d :: t) =
  match split_nn (d :: t) with
  | p :: ps => (c :: p) :: ps
  | [] => [[c]]
  end.
Proof. intros H. cbn [split_nn]. now rewrite H. Qed.

Lemma split_nn_not_nil s : split_nn s <> [].
Proof.
  induction s as [| c | t IH | c d t Hcd IH] using split_nn_ind;
    try discriminate.
  rewrite split_nn_step by exact Hcd.
  destruct (split_nn (d :: t)); discriminate.
Qed.

Lemma join_cons sep p q qs :
  Str.join sep (p :: q :: qs) = p ++ sep ++ Str.join sep (q :: qs).
Proof. reflexivity. Qed.

(** Joining the pieces with the delimiter gives the text back. *)
Lemma join_split_nn s : Str.join [LF; LF] (split_nn s) = s.
Proof.
  induction s as [| c | t IH | c d t Hcd IH] using split_nn_ind;
    try reflexivity.
  - rewrite split_nn_sep.
    pose proof (split_nn_not_nil t) as Hne.
    destruct (split_nn t) as [|p ps] eqn:Hs; [congruence|].
    rewrite join_cons, IH. reflexivity.
  - rewrite split_nn_step by exact Hcd.
    pose proof (split_nn_not_nil (d :: t)) as Hne.
    destruct (split_nn (d :: t)) as [|p ps] eqn:Hs; [congruence|].
    destruct ps as [|q qs].
    + simpl in *. now rewrite IH.
    + rewrite join_cons in *. rewrite <- IH. reflexivity.
Qed.

(** The characters of every piece are characters of the text. *)
Lemma split_nn_Forall (P : char -> Prop) s :
  Forall P s -> Forall (Forall P) (split_nn s).
Proof.
  induction s as [| c | t IH | c d t Hcd IH] using split_nn_ind; intros H.
  - repeat constructor.
  - repeat constructor. now inversion H.
  - rewrite split_nn_sep. constructor; [constructor|].
    apply IH. inversion H as [|? ? _ H']. now inversion H'.
  - rewrite split_nn_step by exact Hcd.
    inversion H as [|? ? Hc H']; subst.
    specialize (IH H').
    destruct (split_nn (d :: t)) as [|p ps]; [repeat constructor; exact Hc|].
    inversion IH; subst. constructor; [constructor|]; assumption.
Qed.

Lemma no_blank_line_tail c s : no_blank_line (c :: s) -> no_blank_line s.
Proof.
  intros H pre post ->. apply (H (c :: pre) post). reflexivity.
Qed.

Lemma split_nn_no_blank_line s : no_blank_line s -> split_nn s = [s].
Proof.
  induction s as [| c | t IH | c d t Hcd IH] using split_nn_ind; intros H;
    try reflexivity.
  - exfalso. apply (H [] t). reflexivity.
  - rewrite split_nn_step by exact Hcd.
    rewrite IH by (eapply no_blank_line_tail; eauto). reflexivity.
Qed.

Lemma has_blank_line_tail c s :
  has_blank_line (c :: s) = false -> has_blank_line s = false.
Proof.
  destruct s as [|d t]; [reflexivity|].
  cbn [has_blank_line]. intros H. now apply orb_false_iff in H as [_ H].
Qed.

Lemma has_blank_line_false s : has_blank_line s = false -> no_blank_line s.
Proof.
  intros H pre. revert s H.
  induction pre as [|a pre IH]; intros s H post ->.
  - simpl in H. discriminate H.
  - apply has_blank_line_tail in H. apply (IH _ H post). reflexivity.
Qed.

(** ** Segmentation *)

Lemma filter_all_false {A} (f : A -> bool) l :
  Forall (fun x => f x = false) l -> List.filter f l = [].
Proof.
  induction 1 as [|x l Hx _ IH]; simpl; [reflexivity|].
  now rewrite Hx.
Qed.

Lemma extract_clauses_whitespace_only T :
  whitespace_only T -> extract_clauses T = [].
Proof.
  intros H. unfold extract_clauses.
  rewrite filter_all_false; [reflexivity|].
  apply split_nn_Forall in H.
  eapply List.Forall_impl; [|exact H].
  intros p Hp. cbv beta. apply truthy_false. now apply strip_whitespace_only.
Qed.

(** A clause of the result is the trimmed form of a piece of the text that
    does not trim to the empty string. *)
Lemma in_extract_clauses T c :
  In c (extract_clauses T) <->
  exists p, In p (split_nn T) /\ strip p <> [] /\ c = strip p.
Proof.
  unfold extract_clauses. rewrite in_map_iff. split.
  - intros (p & <- & Hp). apply filter_In in Hp as [Hin Ht].
    exists p. repeat split; [exact Hin | now apply truthy_true].
  - intros (p & Hin & Hne & ->). exists p. split; [reflexivity|].
    apply filter_In. split; [exact Hin | now apply truthy_true].
Qed.

(** C3, as the claim states it, fails: a text of one space has no blank
    line, and segmentation returns no clause for it, not the one clause
    that the trimmed text (the empty string) would be. *)
Lemma extract_clauses_one_clause_counterexample :
  ~ (forall T, no_blank_line T -> extract_clauses T = [strip T]).
Proof.
  intros H. specialize (H (lit " ")).
  assert (Hn : no_blank_line (lit " ")) by (apply has_blank_line_false; reflexivity).
  specialize (H Hn). vm_compute in H. discriminate H.
Qed.

(** C3 (amended): a text without a blank line that does not trim to the
    empty string is segmented into exactly one clause, the trimmed text. *)
Theorem extract_clauses_no_blank_line T :
  no_blank_line T -> strip T <> [] -> extract_clauses T = [strip T].
Proof.
  intros Hn Hs. unfold extract_clauses.
  rewrite (split_nn_no_blank_line T Hn). simpl.
  apply truthy_true in Hs. now rewrite Hs.
Qed.

Lemma extract_clauses_no_blank_line_witness :
  extract_clauses (lit " Clause one. ") = [lit "Clause one."].
Proof.
  apply (extract_clauses_no_blank_line (lit " Clause one. ")).
  - apply has_blank_line_false. reflexivity.
  - vm_compute. discriminate.
Defined.

(** C4: a text that is empty or all whitespace has no clauses, and every
    clause of any text is a trimmed piece that is not empty, and stays so
    when trimmed again. *)
Theorem extract_clauses_nonempty_trimmed :
  (forall T, whitespace_only T -> extract_clauses T = []) /\
  (forall T c, In c (extract_clauses T) ->
     c <> [] /\ strip c = c /\
     exists p, In p (split_nn T) /\ c = strip p).
Proof.
  split; [exact extract_clauses_whitespace_only|].
  intros T c Hc. apply in_extract_clauses in Hc as (p & Hin & Hne & ->).
  repeat split; [exact Hne | apply strip_idem | eauto].
Qed.

Lemma extract_clauses_nonempty_trimmed_witness :
  extract_clauses [32; 10; 10; 9; 10; 10; 10] = [].
Proof.
  apply (proj1 extract_clauses_nonempty_trimmed).
  repeat constructor.
Defined.

(** ** Relevance filtering *)

Lemma relevant_loop_filter threshold pairs relevant :
  relevant_loop threshold pairs relevant =
  relevant ++ List.filter (clears threshold) pairs.
Proof.
  revert relevant. induction pairs as [|[clause score] rest IH]; intros relevant.
  - simpl. now rewrite app_nil_r.
  - simpl. rewrite IH. unfold clears at 2. simpl.
    destruct (Float32.ge score (Float32.of_float threshold)); [|reflexivity].
    now rewrite <- app_assoc.
Qed.

Lemma find_relevant_clauses_filter E sop clauses model threshold e_sop e_cl scores :
  encode E model (OneText sop) = Ok e_sop ->
  encode E model (ManyTexts clauses) = Ok e_cl ->
  cos_sim_row E e_sop e_cl = Ok scores ->
  find_relevant_clauses E sop clauses model threshold =
  Ok (List.filter (clears (default threshold_default threshold))
        (combine clauses scores)).
Proof.
  intros H1 H2 H3. unfold find_relevant_clauses, encode_text, calculate_similarity.
  rewrite H1. simpl. rewrite H2. simpl. rewrite H3. simpl.
  now rewrite relevant_loop_filter.
Qed.

Lemma map_fst_combine {A B} (l : list A) (l' : list B) :
  length l' = length l -> List.map fst (combine l l') = l.
Proof.
  revert l'. induction l as [|a l IH]; intros [|b l'] H; simpl in *;
    try reflexivity; try discriminate.
  f_equal. apply IH. congruence.
Qed.

Lemma map_snd_combine {A B} (l : list A) (l' : list B) :
  length l' = length l -> List.map snd (combine l l') = l'.
Proof.
  revert l'. induction l as [|a l IH]; intros [|b l'] H; simpl in *;
    try reflexivity; try discriminate.
  f_equal. apply IH. congruence.
Qed.


Lemma filter_sublist {A} (f : A -> bool) l : sublist (List.filter f l) l.
Proof.
  induction l as [|x l IH]; simpl; [constructor|].
  destruct (f x); now constructor.
Qed.

(** A score that single precision holds clears every threshold up to it. *)
Lemma clears_at_least threshold clause score :
  is_float32 score -> (threshold <= score)%Q ->
  clears threshold (clause, score) = true.
Proof.
  intros (v & Hv & Heq) Hle. unfold clears. simpl.
  apply (ge_monotone score threshold score Hle).
  rewrite Hv. simpl. apply Qle_bool_iff. rewrite Heq. apply Qle_refl.
Qed.

(** A score that single precision holds and that clears a threshold above
    it is the rounded threshold itself. *)
Lemma clears_below threshold clause score :
  is_float32 score -> clears threshold (clause, score) = true ->
  (score < threshold)%Q ->
  exists v, Float32.of_float threshold = Float32.Finite v /\ (v == score)%Q.
Proof.
  intros (vs & Hvs & Heq) Hc Hlt. unfold clears in Hc. simpl in Hc.
  assert (Hle : (score <= threshold)%Q) by now apply Qlt_le_weak.
  destruct (Float32.of_float threshold) as [vt|negative] eqn:Ht.
  - exists vt. split; [reflexivity|]. simpl in Hc. apply Qle_bool_iff in Hc.
    apply Qle_antisym; [exact Hc|].
    assert (Hge : Float32.ge vt (Float32.of_float score) = true).
    { apply (ge_monotone vt score threshold Hle). rewrite Ht. simpl.
      apply Qle_bool_iff, Qle_refl. }
    rewrite Hvs in Hge. simpl in Hge. apply Qle_bool_iff in Hge.
    now rewrite <- Heq.
  - simpl in Hc. subst negative. exfalso.
    assert (Hge : Float32.ge (vs - 1) (Float32.of_float score) = true).
    { apply (ge_monotone (vs - 1) score threshold Hle). now rewrite Ht. }
    rewrite Hvs in Hge. simpl in Hge. apply Qle_bool_iff in Hge. lra.
Qed.

(** C1, refuted as stated: the score is an element of a single-precision
    tensor and the comparison is made in single precision.  At the threshold
    0.7 a clause whose score is the single-precision number next below 0.7
    is returned, although its score is less than the threshold. *)
Lemma find_relevant_clauses_threshold_counterexample :
  let E := Fixture.env_scoring (fun _ => Fixture.nearest_to_0_7) None in
  is_float32 Fixture.nearest_to_0_7 /\
  find_relevant_clauses E Fixture.SOP [lit "Wash hands with soap."] tt (Some (7 # 10))
  = Ok [(lit "Wash hands with soap.", Fixture.nearest_to_0_7)] /\
  ~ (7 # 10 <= Fixture.nearest_to_0_7)%Q.
Proof.
  split; [|split].
  - exists Fixture.nearest_to_0_7. split; reflexivity.
  - reflexivity.
  - intros H. apply Qle_bool_iff in H. discriminate H.
Qed.

(** C1 (amended): when the embedding calls return, with one score per
    clause, the result is the list of (clause, score) pairs with
    [score >= threshold] in single precision, that is, against the
    threshold rounded to the nearest single-precision number, in the order
    of the clauses.  For scores that single precision holds, every pair
    whose score is at least the threshold is returned (a score equal to the
    threshold included), and a returned score below the threshold is the
    rounded threshold itself.  Leaving the threshold out is the same as
    passing 0.4. *)
Theorem find_relevant_clauses_threshold
  E sop clauses model threshold e_sop e_cl scores :
  encode E model (OneText sop) = Ok e_sop ->
  encode E model (ManyTexts clauses) = Ok e_cl ->
  cos_sim_row E e_sop e_cl = Ok scores ->
  length scores = length clauses ->
  let scored := combine clauses scores in
  exists relevant,
    find_relevant_clauses E sop clauses model (Some threshold) = Ok relevant /\
    relevant = List.filter (clears threshold) scored /\
    (forall clause score,
       In (clause, score) relevant <->
       In (clause, score) scored /\
       Float32.ge score (Float32.of_float threshold) = true) /\
    (forall clause score,
       In (clause, score) scored -> is_float32 score ->
       (threshold <= score)%Q -> In (clause, score) relevant) /\
    (forall clause score,
       In (clause, score) relevant -> is_float32 score ->
       (score < threshold)%Q ->
       exists v, Float32.of_float threshold = Float32.Finite v /\ (v == score)%Q) /\
    sublist relevant scored /\
    List.map fst scored = clauses /\ List.map snd scored = scores /\
    find_relevant_clauses E sop clauses model None =
    find_relevant_clauses E sop clauses model (Some (4 # 10)).
Proof.
  intros H1 H2 H3 Hlen scored.
  exists (List.filter (clears threshold) scored).
  split; [exact (find_relevant_clauses_filter _ _ _ _ (Some threshold) _ _ _ H1 H2 H3)|].
  split; [reflexivity|].
  split.
  { intros clause score. rewrite List.filter_In. reflexivity. }
  split.
  { intros clause score Hin Hf Hle. rewrite List.filter_In. split; [exact Hin|].
    now apply clears_at_least. }
  split.
  { intros clause score Hin Hf Hlt. rewrite List.filter_In in Hin.
    destruct Hin as [_ Hc]. now apply (clears_below threshold clause score). }
  split; [apply filter_sublist|].
  split; [now apply map_fst_combine|].
  split; [now apply map_snd_combine|].
  reflexivity.
Qed.

Lemma find_relevant_clauses_threshold_witness :
  find_relevant_clauses Fixture.env Fixture.SOP
    [lit "Short"; lit "Wash hands with soap."; lit "Sixchr"] tt (Some (6 # 8))
  = Ok [(lit "Wash hands with soap.", 8 # 8); (lit "Sixchr", 6 # 8)].
Proof.
  destruct (find_relevant_clauses_threshold Fixture.env Fixture.SOP
              [lit "Short"; lit "Wash hands with soap."; lit "Sixchr"] tt (6 # 8)
              [] [5 # 8; 8 # 8; 6 # 8] [5 # 8; 8 # 8; 6 # 8]
              eq_refl eq_refl eq_refl eq_refl)
    as (relevant & Hcall & Hrel & _).
  rewrite Hcall, Hrel. reflexivity.
Defined.





(** ** Decimal digits *)

Lemma forallb_below (P : N -> bool) (k : nat) :
  forallb P (List.map N.of_nat (seq 0 k)) = true ->
  forall n, n < N.of_nat k -> P n = true.
Proof.
  intros H n Hn. rewrite forallb_forall in H. apply H.
  apply in_map_iff. exists (N.to_nat n). split; [apply N2Nat.id|].
  apply in_seq. lia.
Qed.


Lemma zero_pad_3 n : n < 1000 -> pads_to 3 n = true.
Proof. apply (forallb_below (pads_to 3) 1000). vm_compute. reflexivity. Qed.


Lemma pads_to_spec width n :
  pads_to width n = true ->
  length (zero_pad width n) = width /\ forallb isdigit (zero_pad width n) = true.
Proof.
  unfold pads_to. intros H. apply andb_true_iff in H as [Hl Hd].
  split; [now apply Nat.eqb_eq | exact Hd].
Qed.

Lemma digits_value_isdigit s : forall acc v,
  digits_value acc s = Some v -> forallb isdigit s = true.
Proof.
  induction s as [|c t IH]; intros acc v H; [reflexivity|].
  simpl in *. destruct (isdigit c); [|discriminate]. simpl. eauto.
Qed.

Lemma decimal_digits n : forallb isdigit (decimal n) = true.
Proof. exact (digits_value_isdigit _ _ _ (digits_value_decimal n)). Qed.

Lemma decimal_not_nil n : decimal n <> [].
Proof.
  intros H. pose proof (digits_value_decimal n) as Hv. rewrite H in Hv.
  injection Hv as <-. discriminate H.
Qed.

(** ** The prompt *)

(** The nearest integer is within a half, and a tie goes to an even one. *)
Lemma round_half_even_nearest (x : Q) :
  (Qabs (inject_Z (round_half_even x) - x) <= 1 # 2)%Q /\
  ((Qabs (inject_Z (round_half_even x) - x) == 1 # 2)%Q ->
   Z.even (round_half_even x) = true).
Proof.
  destruct (round_half_even_spec x) as [Hle Heven]. cbv zeta in Hle, Heven.
  set (r := round_half_even x) in *. destruct x as [n d]. simpl in Hle, Heven.
  assert (Habs : (Qabs (inject_Z r - (n # d)) == (Z.abs (n - r * Zpos d) # d))%Q).
  { unfold Qabs, Qminus, Qplus, Qopp, inject_Z, Qeq. simpl.
    rewrite Pos.mul_1_l. f_equal.
    replace (r * Z.pos d + - n * 1)%Z with (- (n - r * Z.pos d))%Z by ring.
    now rewrite Z.abs_opp. }
  rewrite Habs. unfold Qle, Qeq. simpl. split; [lia|].
  intros H. apply Heven. lia.
Qed.

Lemma round_half_even_Qeq (x y : Q) :
  (x == y)%Q -> round_half_even x = round_half_even y.
Proof.
  intros H. apply Z.le_antisymm; apply round_half_even_monotone;
    rewrite H; apply Qle_refl.
Qed.

Lemma negative_Qeq (a b : Q) : (a == b)%Q -> (Qnum a <? 0)%Z = (Qnum b <? 0)%Z.
Proof.
  intros H. apply eq_true_iff_eq. rewrite !negative_spec. now rewrite H.
Qed.

(** Equal numbers are rendered alike, whatever fraction denotes them. *)
Lemma format_3f_Qeq (a b : Q) : (a == b)%Q -> format_3f a = format_3f b.
Proof.
  intros H. unfold format_3f.
  rewrite (negative_Qeq a b H).
  rewrite (round_half_even_Qeq (Qabs a * 1000) (Qabs b * 1000)); [reflexivity|].
  now rewrite H.
Qed.

Lemma partition_digits whole rest :
  forallb isdigit whole = true ->
  partition PosixPath.EXTSEP (whole ++ PosixPath.EXTSEP :: rest) = Some (whole, rest).
Proof.
  induction whole as [|c t IH]; intros H; [reflexivity|].
  simpl in H. apply andb_true_iff in H as [Hc Ht].
  cbn [app partition]. rewrite (IH Ht).
  destruct (N.eqb_spec c PosixPath.EXTSEP) as [->|_]; [discriminate Hc | reflexivity].
Qed.

(** The rendering of a score: an optional minus sign, the decimal numeral
    of the whole part, a point and three digits; the thousandths it denotes
    are the nearest to the magnitude of the score, a tie going to the even
    number. *)
Lemma format_3f_value score :
  exists t : N,
    format_3f score =
    (if (Qnum score <? 0)%Z then lit "-" else [])
    ++ decimal (t / 1000) ++ lit "." ++ zero_pad 3 (t mod 1000) /\
    fixed3_value (format_3f score) = Some ((Qnum score <? 0)%Z, t) /\
    (Qabs (inject_Z (Z.of_N t) - Qabs score * 1000) <= 1 # 2)%Q /\
    ((Qabs (inject_Z (Z.of_N t) - Qabs score * 1000) == 1 # 2)%Q -> N.even t = true).
Proof.
  pose proof (round_half_even_nearest (Qabs score * 1000)) as [Hnear Htie].
  assert (Hpos : (0 <= round_half_even (Qabs score * 1000))%Z).
  { apply round_half_even_nonneg.
    apply Qmult_le_0_compat; [apply Qabs_nonneg | discriminate]. }
  unfold format_3f.
  set (r := round_half_even (Qabs score * 1000)) in *.
  exists (Z.to_N r).
  assert (Hdiv : Z.to_N (r / 1000) = Z.to_N r / 1000).
  { apply Z2N.inj_div; [exact Hpos | discriminate]. }
  assert (Hmod : Z.to_N (r mod 1000) = Z.to_N r mod 1000).
  { apply Z2N.inj_mod; [exact Hpos | discriminate]. }
  rewrite Hdiv, Hmod. rewrite Z2N.id by exact Hpos.
  set (t := Z.to_N r) in *.
  assert (Hfrac : pads_to 3 (t mod 1000) = true).
  { apply zero_pad_3. apply N.mod_lt. discriminate. }
  destruct (pads_to_spec _ _ Hfrac) as [Hlen Hdig].
  split; [reflexivity|]. split; [|split; [exact Hnear|]].
  - unfold fixed3_value.
    assert (Hbody :
      (let s := (if (Qnum score <? 0)%Z then lit "-" else [])
                ++ decimal (t / 1000) ++ lit "." ++ zero_pad 3 (t mod 1000) in
       let negative := match s with c :: _ => c =? 45 | [] => false end in
       negative = (Qnum score <? 0)%Z /\
       (if negative then drop 1 s else s)
       = decimal (t / 1000) ++ PosixPath.EXTSEP :: zero_pad 3 (t mod 1000))).
    { cbv zeta. destruct (Qnum score <? 0)%Z.
      - split; reflexivity.
      - cbn [app].
        pose proof (decimal_digits (t / 1000)) as Hd.
        destruct (decimal (t / 1000)) as [|c rest] eqn:Hdec;
          [now apply decimal_not_nil in Hdec|].
        simpl in Hd. apply andb_true_iff in Hd as [Hc _].
        cbn [app]. destruct (N.eqb_spec c 45) as [->|_]; [discriminate Hc|].
        split; reflexivity. }
    cbv zeta in Hbody. destruct Hbody as [-> ->].
    rewrite (partition_digits _ _ (decimal_digits _)).
    destruct (decimal (t / 1000)) as [|c rest] eqn:Hdec;
      [now apply decimal_not_nil in Hdec|].
    cbn [truthy andb]. rewrite Hlen. cbn [Nat.eqb]. rewrite <- Hdec.
    rewrite digits_value_decimal, digits_value_zero_pad.
    do 2 f_equal. pose proof (N.div_mod t 1000 ltac:(discriminate)). lia.
  - intros H. specialize (Htie H).
    rewrite <- (Z2N.id r Hpos) in Htie. fold t in Htie.
    destruct t as [|[p|p|]]; first [exact Htie | reflexivity].
Qed.
Lemma clause_block_join render rcs :
  clause_block render rcs (Str.join [LF; LF] (List.map render rcs)).
Proof.
  induction rcs as [|rc rest IH]; [constructor|].
  destruct rest as [|rc' rest]; [constructor|].
  change (Str.join [LF; LF] (List.map render (rc :: rc' :: rest)))
    with (render rc ++ [LF; LF] ++ Str.join [LF; LF] (List.map render (rc' :: rest))).
  constructor; [discriminate | exact IH].
Qed.

Lemma clause_block_fun render rcs block :
  clause_block render rcs block ->
  block = Str.join [LF; LF] (List.map render rcs).
Proof.
  induction 1 as [|rc|rc rest block Hrest _ IH]; [reflexivity | reflexivity |].
  destruct rest as [|rc' rest]; [congruence|]. now rewrite IH.
Qed.

Lemma render_clause_Qeq (rcs rcs' : list (str * Q)) :
  Forall2 (fun rc rc' => fst rc = fst rc' /\ (snd rc == snd rc')%Q) rcs rcs' ->
  List.map render_clause rcs = List.map render_clause rcs'.
Proof.
  induction 1 as [|[c s] [c' s'] rcs rcs' [Hc Hs] _ IH]; [reflexivity|].
  simpl in Hc, Hs. subst c'. simpl. now rewrite IH, (format_3f_Qeq s s' Hs).
Qed.

(** C7: the prompt is the fixed opening, the SOP text as given, the heading
    with the regulation name, the clause block and the fixed closing with
    the five instructions in order.  The clause block is empty for no
    clause, and otherwise every clause rendered as
    [Clause (score: S): TEXT] with a blank line between consecutive ones;
    it is the only text of that description.  S is the score to three
    decimals: a minus sign for a negative score, the whole part, a point and
    three digits, denoting the number of thousandths nearest to the
    magnitude of the score (a tie going to the even number).  The prompt is
    determined by its arguments: equal SOP texts, regulation names and
    clause lists with equal clauses and equal scores give the same prompt.
    Composing it touches no file, prints nothing and reads no clock. *)
Theorem create_prompt_layout sop_text relevant_clauses reg_name :
  (exists block,
     clause_block render_clause relevant_clauses block /\
     create_prompt sop_text relevant_clauses reg_name =
     NL ++ lit "You are an expert in regulatory compliance analysis. Your task is to analyze a Standard Operating Procedure (SOP) document and determine its compliance with relevant regulatory clauses."
     ++ NL ++ NL ++ lit "### SOP DOCUMENT:" ++ NL
     ++ sop_text ++ NL ++ NL
     ++ lit "### RELEVANT REGULATORY CLAUSES FROM " ++ reg_name ++ lit ":" ++ NL
     ++ block ++ NL ++ NL
     ++ lit "Please provide a detailed compliance analysis report that includes:" ++ NL
     ++ lit "1. Overview of the SOP document's purpose and scope" ++ NL
     ++ lit "2. Analysis of each relevant regulatory clause and how it applies to the SOP" ++ NL
     ++ lit "3. Identification of any compliance issues or gaps in the SOP" ++ NL
     ++ lit "4. Specific recommendations for adjustments to bring the SOP into full compliance" ++ NL
     ++ lit "5. Summary of compliance status" ++ NL ++ NL
     ++ lit "Format your analysis as a professional compliance report with clear sections and actionable insights."
     ++ NL) /\
  (forall block block',
     clause_block render_clause relevant_clauses block ->
     clause_block render_clause relevant_clauses block' -> block = block') /\
  (forall clause score,
     exists t : N,
       render_clause (clause, score) =
       lit "Clause (score: "
       ++ ((if (Qnum score <? 0)%Z then lit "-" else [])
           ++ decimal (t / 1000) ++ lit "." ++ zero_pad 3 (t mod 1000))
       ++ lit "): " ++ clause /\
       fixed3_value (format_3f score) = Some ((Qnum score <? 0)%Z, t) /\
       (Qabs (inject_Z (Z.of_N t) - Qabs score * 1000) <= 1 # 2)%Q /\
       ((Qabs (inject_Z (Z.of_N t) - Qabs score * 1000) == 1 # 2)%Q ->
        N.even t = true)) /\
  (forall sop_text' relevant_clauses' reg_name',
     sop_text' = sop_text -> reg_name' = reg_name ->
     Forall2 (fun rc rc' => fst rc = fst rc' /\ (snd rc == snd rc')%Q)
       relevant_clauses relevant_clauses' ->
     create_prompt sop_text' relevant_clauses' reg_name' =
     create_prompt sop_text relevant_clauses reg_name) /\
  (forall w : World,
     (prompt <- ret (create_prompt sop_text relevant_clauses reg_name) ;;
      ret prompt)%io w
     = (Ok (create_prompt sop_text relevant_clauses reg_name), w)).
Proof.
  split; [|split; [|split; [|split]]].
  - exists (Str.join [LF; LF] (List.map render_clause relevant_clauses)).
    split; [apply clause_block_join|].
    unfold create_prompt, PROMPT_HEAD, PROMPT_TAIL, INSTRUCTION_1, INSTRUCTION_2,
      INSTRUCTION_3, INSTRUCTION_4, INSTRUCTION_5.
    cbv zeta. now rewrite <- !app_assoc.
  - intros block block' H H'.
    rewrite (clause_block_fun _ _ _ H), (clause_block_fun _ _ _ H'). reflexivity.
  - intros clause score.
    destruct (format_3f_value score) as (t & Hf & Hv & Hnear & Htie).
    exists t. unfold render_clause. rewrite <- Hf.
    split; [reflexivity|]. split; [exact Hv|]. split; [exact Hnear | exact Htie].
  - intros sop_text' relevant_clauses' reg_name' -> -> Hrcs.
    unfold create_prompt. cbv zeta.
    now rewrite (render_clause_Qeq _ _ Hrcs).
  - intros w. reflexivity.
Qed.

Example create_prompt_two_clauses :
  Str.join [LF; LF]
    (List.map render_clause [(lit "A", 4567 # 10000); (lit "B", 1 # 2)])
  = lit "Clause (score: 0.457): A" ++ [LF; LF] ++ lit "Clause (score: 0.500): B".
Proof. reflexivity. Qed.

(** A tie goes to the even thousandth, and a negative score keeps its
    sign. *)
Example format_3f_ties :
  format_3f (1 # 16) = lit "0.062" /\ format_3f (3 # 16) = lit "0.188" /\
  format_3f (- (1 # 4)) = lit "-0.250" /\ format_3f (12 # 1) = lit "12.000".
Proof. repeat split; reflexivity. Qed.


(** ** Paths *)







(** The last occurrence of a character cuts a text in one way only. *)
Lemma split_last_unique (c : N) a1 : forall r1 a2 r2,
  a1 ++ c :: r1 = a2 ++ c :: r2 -> ~ In c r1 -> ~ In c r2 ->
  a1 = a2 /\ r1 = r2.
Proof.
  induction a1 as [|x a1 IH]; intros r1 [|y a2] r2 H H1 H2; simpl in H.
  - injection H as ->. now split.
  - injection H as <- ->. exfalso. apply H1, in_or_app. right. now left.
  - injection H as -> <-. exfalso. apply H2, in_or_app. right. now left.
  - injection H as -> H. destruct (IH _ _ _ H H1 H2) as [-> ->]. now split.
Qed.



(** A regulation name has one base name. *)
Lemma base_name_of_unique reg_name base base' :
  base_name_of reg_name base -> base_name_of reg_name base' -> base = base'.
Proof.
  intros (dir & ext & Hn & Hdir & Hsep & Hext)
         (dir' & ext' & Hn' & Hdir' & Hsep' & Hext').
  assert (Hrest : base ++ ext = base' ++ ext').
  { rewrite Hn in Hn'.
    destruct Hdir as [-> | (d & ->)], Hdir' as [-> | (d' & ->)].
    - exact Hn'.
    - exfalso. apply Hsep. simpl in Hn'. rewrite Hn', <- app_assoc.
      apply in_or_app. right. now left.
    - exfalso. apply Hsep'. simpl in Hn'. rewrite <- Hn', <- app_assoc.
      apply in_or_app. right. now left.
    - rewrite <- !app_assoc in Hn'. simpl in Hn'.
      now destruct (split_last_unique _ _ _ _ _ Hn' Hsep Hsep'). }
  destruct Hext as [(e & -> & He & Hdots) | [-> Hroot]],
           Hext' as [(e' & -> & He' & Hdots') | [-> Hroot']].
  - now destruct (split_last_unique _ _ _ _ _ Hrest He He').
  - rewrite app_nil_r in Hrest. exfalso. apply Hdots.
    exact (Hroot' base e (eq_sym Hrest) He).
  - rewrite app_nil_r in Hrest. exfalso. apply Hdots'.
    exact (Hroot base' e' Hrest He').
  - now rewrite !app_nil_r in Hrest.
Qed.

Example base_name_of_Reg_A base :
  base_name_of (lit "regs/Reg A.txt") base -> base = lit "Reg A".
Proof.
  intros H. apply (base_name_of_unique _ _ _ H).
  exists (lit "regs/"), (lit ".txt"). split; [reflexivity|].
  split; [right; now exists (lit "regs")|].
  split; [vm_compute; intuition discriminate|].
  left. exists (lit "txt"). split; [reflexivity|].
  split; [vm_compute; intuition discriminate|].
  intros Hall. inversion Hall as [|c t Hc _]. discriminate Hc.
Qed.

Lemma join_relative a b :
  a <> [] -> startswith b [PosixPath.SEP] = false ->
  (PosixPath.join a b = a ++ [PosixPath.SEP] ++ b /\ endswith a [PosixPath.SEP] = false) \/
  (PosixPath.join a b = a ++ b /\ endswith a [PosixPath.SEP] = true).
Proof.
  intros Ha Hb. unfold PosixPath.join. rewrite Hb.
  destruct a as [|x a]; [congruence|]. cbn [truthy negb orb].
  destruct (endswith (x :: a) [PosixPath.SEP]); [right | left]; now split.
Qed.

(** ** The time stamp *)










(** ** Storing a report *)






Lemma set_dirs_same w : set_dirs (dirs w) w = w.
Proof. now destruct w. Qed.


Lemma dirs_with_present d w :
  can_makedirs d w = true -> is_Some (dirs_with d w !! d).
Proof.
  unfold can_makedirs, dirs_with. destruct (dirs w !! d) eqn:H; [rewrite H; eauto|].
  destruct (makedirs_plan w d (PosixPath.ancestors d)); [discriminate|].
  intros _. simpl. rewrite lookup_insert_eq. eauto.
Qed.



Lemma os_makedirs_intro d w :
  d <> [] -> files w !! d = None -> can_makedirs d w = true ->
  os_makedirs d w = (Ok tt, set_dirs (dirs_with d w) w).
Proof.
  intros Hd Hf. unfold os_makedirs, can_makedirs, dirs_with.
  destruct d as [|x d]; [congruence|]. rewrite Hf.
  destruct (dirs w !! (x :: d)); [now rewrite set_dirs_same|].
  destruct (makedirs_plan w (x :: d) (PosixPath.ancestors (x :: d)));
    [discriminate | reflexivity].
Qed.

Lemma os_makedirs_Ok d w w1 :
  os_makedirs d w = (Ok tt, w1) ->
  d <> [] /\ files w !! d = None /\ can_makedirs d w = true /\
  w1 = set_dirs (dirs_with d w) w.
Proof.
  unfold os_makedirs, can_makedirs, dirs_with.
  destruct d as [|x d]; [discriminate|].
  destruct (files w !! (x :: d)); [discriminate|].
  destruct (dirs w !! (x :: d)).
  - intros [= <-]. now rewrite set_dirs_same.
  - destruct (makedirs_plan w (x :: d) (PosixPath.ancestors (x :: d)));
      [discriminate|].
    intros [= <-]. repeat split. discriminate.
Qed.

Lemma os_makedirs_Raise d w e w1 : os_makedirs d w = (Raise e, w1) -> w1 = w.
Proof.
  unfold os_makedirs. destruct d as [|x d]; [now intros [= _ <-]|].
  destruct (files w !! (x :: d)); [now intros [= _ <-]|].
  destruct (dirs w !! (x :: d)); [discriminate|].
  destruct (makedirs_plan w (x :: d) (PosixPath.ancestors (x :: d)));
    [now intros [= _ <-] | discriminate].
Qed.

(** [save_report] step by step: the directory, the clock, the file. *)
Lemma save_report_unfold report reg_name output_dir w :
  let d := default output_dir_default output_dir in
  let path := PosixPath.join d (report_filename reg_name (clock w (reads w))) in
  save_report report reg_name output_dir w =
  match os_makedirs d w with
  | (Raise e, w1) => (Raise e, w1)
  | (Ok _, _) =>
      match dirs_with d w !! path with
      | Some _ =>
          (Raise (os_error IsADirectoryError "[Errno 21] Is a directory: " path),
           MkWorld (files w) (dirs_with d w) (stdout w) (clock w) (S (reads w)))
      | None =>
          if utf8_encodable report
          then (Ok path, saved_world d path report w)
          else (Raise (encode_error report), saved_world d path [] w)
      end
  end.
Proof.
  cbv zeta. unfold save_report, bind. cbv zeta.
  destruct (os_makedirs (default output_dir_default output_dir) w)
    as [[[]|e] w1] eqn:Hmk; [|reflexivity].
  apply os_makedirs_Ok in Hmk as (_ & _ & _ & ->).
  unfold datetime_now, write_file, ret, saved_world. simpl.
  destruct (dirs_with _ w !! _); [reflexivity|].
  destruct (utf8_encodable report); reflexivity.
Qed.

(** What a returned path says about the call, and the world after it. *)
Lemma save_report_ok_inv report reg_name output_dir w path w' :
  save_report report reg_name output_dir w = (Ok path, w') ->
  let d := default output_dir_default output_dir in
  d <> [] /\ files w !! d = None /\ can_makedirs d w = true /\
  utf8_encodable report = true /\
  path = PosixPath.join d (report_filename reg_name (clock w (reads w))) /\
  dirs_with d w !! path = None /\
  w' = saved_world d path report w.
Proof.
  rewrite save_report_unfold. cbv zeta.
  destruct (os_makedirs (default output_dir_default output_dir) w)
    as [[[]|e] w1] eqn:Hmk; [|discriminate].
  apply os_makedirs_Ok in Hmk as (Hd & Hf & Hcan & _).
  destruct (dirs_with _ w !! _) eqn:Hfree; [discriminate|].
  destruct (utf8_encodable report); [|discriminate].
  intros [= <- <-]. repeat split; assumption.
Qed.


Lemma report_filename_relative reg_name now :
  report_filename reg_name now <> [] /\
  startswith (report_filename reg_name now) [PosixPath.SEP] = false.
Proof. split; [discriminate | reflexivity]. Qed.


Lemma app_neq_self (a b : list N) : b <> [] -> a ++ b <> a.
Proof.
  intros Hb H. apply (f_equal (@length N)) in H.
  rewrite length_app in H. destruct b; [congruence | simpl in H; lia].
Qed.






(** The empty output directory is one that cannot be made: [os.makedirs]
    raises and nothing is written. *)
Example save_report_empty_output_dir :
  save_report (lit "REPORT") (lit "regs/Reg A.txt") (Some []) Fixture.world
  = (Raise (Exn FileNotFoundError (lit "[Errno 2] No such file or directory: ''")),
     Fixture.world).
Proof. reflexivity. Qed.

(** A run of surrogates is reported by its positions. *)
Example encode_error_run :
  exn_str (encode_error (lit "ab" ++ [55357; 56832] ++ lit "c"))
  = lit "'utf-8' codec can't encode characters in position 2-3: surrogates not allowed".
Proof. vm_compute. reflexivity. Qed.

(** An output directory below a regular file cannot be made either. *)
Example save_report_below_a_file :
  save_report (lit "REPORT") (lit "regs/Reg A.txt") (Some (lit "sop.txt/out"))
    Fixture.world
  = (Raise (Exn NotADirectoryError (lit "[Errno 20] Not a directory: 'sop.txt/out'")),
     Fixture.world).
Proof. vm_compute. reflexivity. Qed.

(** The directories above the output directory are made with it. *)
Example save_report_makes_parents :
  let w' := snd (save_report (lit "REPORT") (lit "regs/Reg A.txt")
                   (Some (lit "out/2024")) Fixture.world) in
  dirs w' !! lit "out" = Some [] /\ dirs w' !! lit "out/2024" = Some [].
Proof. split; vm_compute; reflexivity. Qed.

(** A report with Windows line ends is stored as it is and read back with
    the line ends translated. *)
Example save_report_line_ends :
  let report := lit "a" ++ [CR; LF] ++ lit "b" in
  let path := lit "out/compliance_report_Reg A_20240309_120005.txt" in
  let w' := snd (save_report report (lit "Reg A.txt") (Some (lit "out"))
                   Fixture.world) in
  files w' !! path = Some report /\
  fst (load_text path w') = Ok (lit "a" ++ [LF] ++ lit "b").
Proof. split; vm_compute; reflexivity. Qed.

(** ** Folder mode: aggregation *)

(** With every eligible file processed to [rel name], the loop appends, in
    the order of the listing, the files whose result is not empty. *)
Lemma docs_loop_aggregates E sop_text folder model (rel : list N -> list (list N * Q)) w :
  forall filenames all_relevant,
  (forall name, In name filenames -> eligible E name = true ->
     process_single_regulatory_doc E sop_text (PosixPath.join folder name) model w
     = (Ok (rel name), w)) ->
  docs_loop E sop_text folder model filenames all_relevant w =
  (Ok (all_relevant ++
       List.map (fun name => (name, rel name))
         (List.filter (fun name => eligible E name && nonempty (rel name)) filenames)),
   w).
Proof.
  induction filenames as [|name rest IH]; intros acc Hall.
  - simpl. unfold ret. now rewrite app_nil_r.
  - cbn [docs_loop List.filter].
    assert (Hrest : forall n, In n rest -> eligible E n = true ->
              process_single_regulatory_doc E sop_text (PosixPath.join folder n) model w
              = (Ok (rel n), w))
      by (intros n Hn; apply Hall; now right).
    destruct (eligible E name) eqn:Hel; cbn [andb].
    + unfold bind at 1. rewrite (Hall name (or_introl eq_refl) Hel).
      rewrite (IH _ Hrest).
      destruct (rel name) as [|pair pairs] eqn:Hrel; cbn [nonempty]; [reflexivity|].
      cbn [List.map]. now rewrite Hrel, <- app_assoc.
    + apply IH, Hrest.
Qed.

(** X: when the model, the SOP and the listing load and every eligible
    file is read and scored without an exception, the aggregate holds one
    (file name, relevant clauses) entry for each eligible file with at
    least one relevant clause, in the order of the listing; the other files
    leave no trace: nothing is raised and nothing is printed (the world is
    unchanged). *)
Theorem process_regulatory_docs_aggregates
  E sop_file folder w model sop_text filenames (rel : list N -> list (list N * Q)) :
  SentenceTransformer E MODEL_NAME = Ok model ->
  files w !! sop_file = Some sop_text ->
  dirs w !! folder = Some filenames ->
  (forall name, In name filenames -> eligible E name = true ->
     process_single_regulatory_doc E (universal_newlines sop_text)
       (PosixPath.join folder name) model w
     = (Ok (rel name), w)) ->
  process_regulatory_docs E sop_file folder w =
  (Ok (List.map (fun name => (name, rel name))
         (List.filter (fun name => eligible E name && nonempty (rel name)) filenames)),
   w).
Proof.
  intros Hmodel Hsop Hdir Hall.
  unfold process_regulatory_docs, bind, lift, load_text, read_file, os_listdir.
  rewrite Hmodel, Hsop, Hdir.
  now rewrite (docs_loop_aggregates E _ folder model rel w filenames [] Hall).
Qed.

(** The relevant clauses of the fixture files, by file name. *)
Example process_regulatory_docs_three_files :
  process_regulatory_docs Fixture.env (lit "sop.txt") (lit "regs") Fixture.world
  = (Ok [(lit "a_extracted.txt", [(lit "Wash hands with soap.", 8 # 8)]);
         (lit "c_EXTRACTED.TXT", [(lit "Keep the bench clean.", 8 # 8)])],
     Fixture.world).
Proof. vm_compute. reflexivity. Qed.

Lemma process_regulatory_docs_aggregates_witness :
  fst (process_regulatory_docs Fixture.env (lit "sop.txt") (lit "regs") Fixture.world)
  = Ok [(lit "a_extracted.txt", [(lit "Wash hands with soap.", 8 # 8)]);
        (lit "c_EXTRACTED.TXT", [(lit "Keep the bench clean.", 8 # 8)])].
Proof.
  rewrite (process_regulatory_docs_aggregates Fixture.env (lit "sop.txt") (lit "regs")
             Fixture.world tt Fixture.SOP
             [lit "a_extracted.txt"; lit "notes.md";
              lit "b_extracted.txt"; lit "c_EXTRACTED.TXT"]
             (fun name =>
                match fst (process_single_regulatory_doc Fixture.env Fixture.SOP
                             (PosixPath.join (lit "regs") name) tt Fixture.world) with
                | Ok relevant => relevant
                | Raise _ => []
                end)).
  - vm_compute. reflexivity.
  - reflexivity.
  - vm_compute. reflexivity.
  - vm_compute. reflexivity.
  - intros name [<- | [<- | [<- | [<- | []]]]] _; vm_compute; reflexivity.
Defined.

(** ** Single-file mode: a regulation file that does not exist *)



(** The fixture file [b_extracted.txt] exists and has no relevant clause:
    the same returned value. *)
Example analyze_specific_regulation_no_clauses :
  fst (process_specific_reg_file Fixture.env (lit "sop.txt") (lit "regs/b_extracted.txt")
         Fixture.world) = Ok (Some []) /\
  fst (analyze_specific_regulation Fixture.env (lit "sop.txt") (lit "regs/b_extracted.txt")
         Fixture.world) = Ok None.
Proof. split; vm_compute; reflexivity. Qed.

(** ** Report generation *)

Lemma generate_report_ok E prompt max_tokens w text :
  generate_report_body E prompt (default max_tokens_default max_tokens) = Ok text ->
  generate_report_with_claude E prompt max_tokens w = (Ok text, w).
Proof.
  intros H. unfold generate_report_with_claude, try_except, lift.
  now rewrite H.
Qed.

Lemma generate_report_caught E prompt max_tokens w e :
  generate_report_body E prompt (default max_tokens_default max_tokens) = Raise e ->
  is_Exception e = true ->
  generate_report_with_claude E prompt max_tokens w
  = (Ok (lit "Error: " ++ exn_str e), set_stdout (stdout w ++ [error_line e]) w).
Proof.
  intros Hbody Hexc. unfold generate_report_with_claude, try_except, lift.
  rewrite Hbody, Hexc. reflexivity.
Qed.




(** The name [client] is not bound in the module: the lookup fails inside
    the [try], and the text of the [NameError] is returned. *)
Example generate_report_without_client :
  fst (generate_report_with_claude (Fixture.env_with None) (lit "prompt") None
         Fixture.world)
  = Ok (lit "Error: name 'client' is not defined").
Proof. reflexivity. Qed.

(** ** Folder mode: an exception leaves the loop *)

Lemma read_file_world path w : snd (read_file path w) = w.
Proof.
  unfold read_file.
  destruct (files w !! path); [reflexivity|].
  destruct (dirs w !! path); reflexivity.
Qed.

(** Processing one document reads and computes; it leaves the world as it
    found it, also when it raises. *)
Lemma process_single_world E sop_text path model w :
  snd (process_single_regulatory_doc E sop_text path model w) = w.
Proof.
  unfold process_single_regulatory_doc, bind, load_text.
  pose proof (read_file_world path w) as Hw.
  destruct (read_file path w) as [[text|e] w1]; simpl in Hw; subst w1;
    reflexivity.
Qed.



(** ** Folder mode: an eligible file without a clause *)

Lemma universal_newlines_whitespace_only s :
  whitespace_only s -> whitespace_only (universal_newlines s).
Proof.
  unfold whitespace_only.
  enough (H : (Forall (fun c => isspace c = true) s ->
               Forall (fun c => isspace c = true) (universal_newlines s)) /\
              forall c, Forall (fun c => isspace c = true) (c :: s) ->
                        Forall (fun c => isspace c = true)
                          (universal_newlines (c :: s))) by exact (proj1 H).
  induction s as [|d t [IHa IHb]].
  - split; [intros _; constructor|]. intros c H. inversion H; subst.
    cbn [universal_newlines]. destruct (c =? CR); now repeat constructor.
  - split; [apply IHb|]. intros c H.
    inversion H as [|? ? Hc Hdt]; subst. inversion Hdt as [|? ? Hd Ht]; subst.
    cbn [universal_newlines]. destruct (c =? CR).
    + constructor; [reflexivity|].
      destruct (d =? LF); [now apply IHa | now apply IHb].
    + constructor; [exact Hc | now apply IHb].
Qed.

(** A file that is empty or all whitespace, read in text mode, has no
    clause. *)
Lemma extract_clauses_read_whitespace_only text :
  whitespace_only text -> extract_clauses (universal_newlines text) = [].
Proof.
  intros H. now apply extract_clauses_whitespace_only, universal_newlines_whitespace_only.
Qed.

(** An exception raised for one eligible file of the listing leaves the
    loop with an exception, whatever the other files hold. *)
Lemma docs_loop_aborts E sop_text folder model w name e :
  forall filenames all_relevant,
  In name filenames -> eligible E name = true ->
  fst (process_single_regulatory_doc E sop_text (PosixPath.join folder name) model w)
  = Raise e ->
  exists e', docs_loop E sop_text folder model filenames all_relevant w = (Raise e', w).
Proof.
  induction filenames as [|n rest IH]; intros acc Hin Hel Hraise; [destruct Hin|].
  cbn [docs_loop].
  destruct (eligible E n) eqn:Hn.
  - unfold bind at 1.
    pose proof (process_single_world E sop_text (PosixPath.join folder n) model w) as Hw.
    destruct (process_single_regulatory_doc E sop_text (PosixPath.join folder n) model w)
      as [[relevant|e1] w1] eqn:Hp; simpl in Hw; subst w1; [|eauto].
    destruct Hin as [-> | Hin]; [rewrite Hp in Hraise; discriminate|].
    now apply IH.
  - destruct Hin as [-> | Hin]; [congruence|]. now apply IH.
Qed.

(** C9, a fault of the code: an eligible file that is empty or holds only
    whitespace has no clause.  The specification counts such a document
    among those with nothing to report; the code hands its empty batch of
    clauses to the embedding and similarity routines, and when these raise
    on an empty batch, as the library does, folder mode raises too: no
    aggregate is returned, neither for this file nor for the others of the
    folder. *)
Theorem process_regulatory_docs_empty_file_aborts
  E sop_file folder w model sop_text filenames name text e :
  SentenceTransformer E MODEL_NAME = Ok model ->
  files w !! sop_file = Some sop_text ->
  dirs w !! folder = Some filenames ->
  In name filenames ->
  eligible E name = true ->
  files w !! PosixPath.join folder name = Some text ->
  whitespace_only text ->
  find_relevant_clauses E (universal_newlines sop_text) [] model None = Raise e ->
  exists e',
    process_regulatory_docs E sop_file folder w = (Raise e', w) /\
    analyze_all_regulations E sop_file folder w = (Raise e', w).
Proof.
  intros Hmodel Hsop Hdir Hin Hel Hfile Hws Hempty.
  assert (Hraise :
    fst (process_single_regulatory_doc E (universal_newlines sop_text)
           (PosixPath.join folder name) model w) = Raise e).
  { unfold process_single_regulatory_doc, bind, load_text, read_file, lift.
    rewrite Hfile. simpl. now rewrite (extract_clauses_read_whitespace_only _ Hws). }
  destruct (docs_loop_aborts E _ folder model w name e filenames [] Hin Hel Hraise)
    as [e' Hloop].
  exists e'.
  assert (H : process_regulatory_docs E sop_file folder w = (Raise e', w)).
  { unfold process_regulatory_docs, bind, lift, load_text, read_file, os_listdir.
    now rewrite Hmodel, Hsop, Hdir. }
  split; [exact H|].
  unfold analyze_all_regulations, bind. now rewrite H.
Qed.

Lemma process_regulatory_docs_empty_file_aborts_witness :
  exists e',
    process_regulatory_docs Fixture.env (lit "sop.txt") (lit "regs") Fixture.world3
    = (Raise e', Fixture.world3) /\
    analyze_all_regulations Fixture.env (lit "sop.txt") (lit "regs") Fixture.world3
    = (Raise e', Fixture.world3).
Proof.
  apply (process_regulatory_docs_empty_file_aborts Fixture.env (lit "sop.txt")
           (lit "regs") Fixture.world3 tt Fixture.SOP
           [lit "a_extracted.txt"; lit "b_extracted.txt"; lit "c_extracted.txt"]
           (lit "b_extracted.txt") []
           (Exn LibraryError
              (lit "mat1 and mat2 shapes cannot be multiplied (1x384 and 0x1)"))).
  - reflexivity.
  - vm_compute. reflexivity.
  - vm_compute. reflexivity.
  - right. now left.
  - vm_compute. reflexivity.
  - vm_compute. reflexivity.
  - constructor.
  - reflexivity.
Defined.

(** The folder of three eligible files of which the second is empty: the
    run ends with the error of the similarity routine, although the first
    and the third file each hold a relevant clause. *)
Example process_regulatory_docs_empty_file :
  process_regulatory_docs Fixture.env (lit "sop.txt") (lit "regs") Fixture.world3
  = (Raise (Exn LibraryError
              (lit "mat1 and mat2 shapes cannot be multiplied (1x384 and 0x1)")),
     Fixture.world3) /\
  fst (process_single_regulatory_doc Fixture.env Fixture.SOP
         (lit "regs/a_extracted.txt") tt Fixture.world3)
  = Ok [(lit "Wash hands with soap.", 8 # 8)] /\
  fst (process_single_regulatory_doc Fixture.env Fixture.SOP
         (lit "regs/c_extracted.txt") tt Fixture.world3)
  = Ok [(lit "Keep the bench clean.", 8 # 8)].
Proof. repeat split; vm_compute; reflexivity. Qed.

(** ** Where the reports go *)





(** * Further properties of the code *)

(** ** Segmentation: what trimming and splitting keep *)

Lemma lstrip_decompose s :
  exists ws, s = ws ++ lstrip s /\ whitespace_only ws.
Proof.
  induction s as [|c t (ws & Ht & Hws)]; [exists []; split; [reflexivity | constructor]|].
  simpl. destruct (isspace c) eqn:Hc.
  - exists (c :: ws). split; [simpl; now rewrite <- Ht | now constructor].
  - exists []. split; [reflexivity | constructor].
Qed.

Lemma whitespace_only_rev s : whitespace_only s -> whitespace_only (rev s).
Proof.
  unfold whitespace_only. rewrite !List.Forall_forall.
  intros H c Hc. apply H. now apply in_rev.
Qed.

Lemma rstrip_decompose s :
  exists ws, s = rstrip s ++ ws /\ whitespace_only ws.
Proof.
  unfold rstrip. destruct (lstrip_decompose (rev s)) as (ws & Hs & Hws).
  exists (rev ws). split; [|now apply whitespace_only_rev].
  rewrite <- rev_app_distr, <- Hs. now rewrite rev_involutive.
Qed.

(** Trimming removes whitespace at both ends and nothing else. *)
Lemma strip_decompose s :
  exists left right,
    s = left ++ strip s ++ right /\ whitespace_only left /\ whitespace_only right.
Proof.
  destruct (lstrip_decompose s) as (left & Hl & Hwl).
  destruct (rstrip_decompose (lstrip s)) as (right & Hr & Hwr).
  exists left, right. unfold strip. rewrite <- Hr, <- Hl. auto.
Qed.

Lemma rstrip_last s s' z : rstrip s = s' ++ [z] -> isspace z = false.
Proof.
  unfold rstrip. intros H. apply (f_equal (@rev N)) in H.
  rewrite rev_involutive, rev_app_distr in H. simpl in H.
  eapply lstrip_head; eauto.
Qed.

Lemma strip_first s c t : strip s = c :: t -> isspace c = false.
Proof.
  unfold strip. destruct (lstrip s) as [|d u] eqn:Hs; [discriminate|].
  assert (Hd : isspace d = false) by (eapply lstrip_head; eauto).
  rewrite rstrip_cons by exact Hd. now intros [= <- _].
Qed.

Lemma strip_last s s' z : strip s = s' ++ [z] -> isspace z = false.
Proof. unfold strip. apply rstrip_last. Qed.

Lemma nonspace_app a b : nonspace (a ++ b) = nonspace a ++ nonspace b.
Proof. unfold nonspace. apply List.filter_app. Qed.

Lemma nonspace_whitespace_only s : whitespace_only s -> nonspace s = [].
Proof.
  intros H. unfold nonspace. apply filter_all_false.
  eapply List.Forall_impl; [|exact H]. intros c Hc. cbv beta. now rewrite Hc.
Qed.

Lemma nonspace_strip s : nonspace (strip s) = nonspace s.
Proof.
  destruct (strip_decompose s) as (l & r & Hs & Hl & Hr).
  rewrite Hs at 2. rewrite !nonspace_app.
  now rewrite (nonspace_whitespace_only l Hl), (nonspace_whitespace_only r Hr), app_nil_r.
Qed.

Lemma nonspace_join_blank pieces :
  nonspace (Str.join [LF; LF] pieces) = concat (List.map nonspace pieces).
Proof.
  induction pieces as [|p [|q qs] IH]; [reflexivity | simpl; now rewrite app_nil_r |].
  rewrite join_cons, !nonspace_app, IH. reflexivity.
Qed.

Lemma nonspace_kept_pieces pieces :
  concat (List.map nonspace
            (List.map strip (List.filter (fun p => truthy (strip p)) pieces)))
  = concat (List.map nonspace pieces).
Proof.
  induction pieces as [|p ps IH]; [reflexivity|].
  cbn [List.filter List.map concat].
  destruct (truthy (strip p)) eqn:Hp.
  - cbn [List.map concat]. now rewrite IH, nonspace_strip.
  - rewrite IH. apply truthy_false in Hp.
    rewrite <- (nonspace_strip p), Hp. reflexivity.
Qed.

Lemma nonspace_extract_clauses T :
  concat (List.map nonspace (extract_clauses T)) = nonspace T.
Proof.
  unfold extract_clauses. rewrite nonspace_kept_pieces.
  rewrite <- nonspace_join_blank. now rewrite join_split_nn.
Qed.

Lemma nonspace_nil_whitespace_only s : nonspace s = [] -> whitespace_only s.
Proof.
  induction s as [|c t IH]; [constructor|].
  unfold nonspace. simpl. destruct (isspace c) eqn:Hc; simpl; [|discriminate].
  intros H. constructor; [exact Hc | exact (IH H)].
Qed.

(** X: segmentation loses whitespace only: the characters of the text that
    are not whitespace are those of the clauses, in the same order; so a
    text has no clause exactly when it is empty or all whitespace. *)
Theorem extract_clauses_keeps_nonspace T :
  concat (List.map nonspace (extract_clauses T)) = nonspace T /\
  (extract_clauses T = [] <-> whitespace_only T).
Proof.
  split; [apply nonspace_extract_clauses|]. split.
  - intros H. apply nonspace_nil_whitespace_only.
    rewrite <- nonspace_extract_clauses, H. reflexivity.
  - apply extract_clauses_whitespace_only.
Qed.

(** ** Segmentation: the shape of a clause *)

Lemma is_infix_refl s : is_infix s s.
Proof. exists [], []. now rewrite app_nil_r. Qed.

Lemma is_infix_trans a b c : is_infix a b -> is_infix b c -> is_infix a c.
Proof.
  intros (p1 & q1 & ->) (p2 & q2 & ->).
  exists (p2 ++ p1), (q1 ++ q2). now rewrite <- !app_assoc.
Qed.

Lemma is_infix_app_l a b c : is_infix a b -> is_infix a (c ++ b).
Proof.
  intros (p & q & ->). exists (c ++ p), q. now rewrite <- app_assoc.
Qed.

Lemma is_infix_app_r a b c : is_infix a b -> is_infix a (b ++ c).
Proof.
  intros (p & q & ->). exists p, (q ++ c). now rewrite <- !app_assoc.
Qed.

Lemma is_infix_join sep p parts : In p parts -> is_infix p (Str.join sep parts).
Proof.
  induction parts as [|q [|r rs] IH]; intros Hin.
  - destruct Hin.
  - destruct Hin as [<- | []]. apply is_infix_refl.
  - rewrite join_cons. destruct Hin as [<- | Hin].
    + apply is_infix_app_r, is_infix_refl.
    + apply is_infix_app_l, is_infix_app_l, IH, Hin.
Qed.

Lemma is_infix_strip s : is_infix (strip s) s.
Proof. destruct (strip_decompose s) as (l & r & Hs & _). now exists l, r. Qed.

Lemma no_blank_line_infix c T : is_infix c T -> no_blank_line T -> no_blank_line c.
Proof.
  intros (p & q & ->) H pre post ->.
  apply (H (p ++ pre) (post ++ q)). now rewrite <- !app_assoc.
Qed.

Lemma split_nn_head d t p ps :
  split_nn (d :: t) = p :: ps -> p = [] \/ exists p', p = d :: p'.
Proof.
  destruct t as [|e t'].
  - intros [= <- _]. right. now exists [].
  - destruct ((d =? LF) && (e =? LF)) eqn:Hde.
    + apply andb_true_iff in Hde as [Hd He].
      apply N.eqb_eq in Hd, He. subst d e.
      rewrite split_nn_sep. intros [= <- _]. now left.
    + rewrite split_nn_step by exact Hde.
      destruct (split_nn (e :: t')) as [|q qs]; intros [= <- _]; right; eauto.
Qed.

(** A piece of the split has no blank line inside. *)
Lemma split_nn_pieces_no_blank s :
  Forall (fun p => has_blank_line p = false) (split_nn s).
Proof.
  induction s as [| c | t IH | c d t Hcd IH] using split_nn_ind.
  - repeat constructor.
  - repeat constructor.
  - rewrite split_nn_sep. constructor; [reflexivity | exact IH].
  - rewrite split_nn_step by exact Hcd.
    destruct (split_nn (d :: t)) as [|p ps] eqn:Hs; [repeat constructor|].
    inversion IH as [|? ? Hp Hps]; subst. constructor; [|exact Hps].
    destruct (split_nn_head _ _ _ _ Hs) as [-> | [p' ->]]; [reflexivity|].
    cbn [has_blank_line] in *. now rewrite Hcd, Hp.
Qed.

(** X: a clause is a run of consecutive characters of the text; it starts
    and ends with a character that is not whitespace and holds no blank
    line. *)
Theorem extract_clauses_clause_shape T c :
  In c (extract_clauses T) ->
  is_infix c T /\ clause_shaped c /\
  (exists first rest, c = first :: rest /\ isspace first = false) /\
  (exists front last, c = front ++ [last] /\ isspace last = false).
Proof.
  intros Hc. apply in_extract_clauses in Hc as (p & Hin & Hne & ->).
  assert (Hinf : is_infix (strip p) T).
  { eapply is_infix_trans; [apply is_infix_strip|].
    rewrite <- (join_split_nn T). now apply is_infix_join. }
  assert (Hnb : no_blank_line (strip p)).
  { eapply no_blank_line_infix; [apply is_infix_strip|].
    apply has_blank_line_false.
    exact (proj1 (List.Forall_forall _ _) (split_nn_pieces_no_blank T) p Hin). }
  split; [exact Hinf|].
  split; [split; [exact Hne | split; [apply strip_idem | exact Hnb]]|].
  split.
  - destruct (strip p) as [|a r] eqn:Hs; [congruence|].
    exists a, r. split; [reflexivity | eapply strip_first; eauto].
  - destruct (exists_last Hne) as (front & last & Hs).
    exists front, last. split; [exact Hs | eapply strip_last; eauto].
Qed.

Lemma extract_clauses_clause_shape_witness :
  is_infix (lit "b c") (lit " a" ++ [LF; LF] ++ lit " b c ").
Proof.
  apply (extract_clauses_clause_shape (lit " a" ++ [LF; LF] ++ lit " b c ") (lit "b c")).
  vm_compute. right. left. reflexivity.
Defined.

(** ** Segmentation: joining clauses and segmenting again *)

Lemma split_nn_app_sep c rest :
  no_blank_line c -> (forall c', c <> c' ++ [LF]) ->
  split_nn (c ++ LF :: LF :: rest) = c :: split_nn rest.
Proof.
  induction c as [|a t IH]; intros Hnb Hlast; [apply split_nn_sep|].
  assert (Hnbt : no_blank_line t) by (eapply no_blank_line_tail; eauto).
  assert (Hlt : forall c', t <> c' ++ [LF])
    by (intros c' ->; now apply (Hlast (a :: c'))).
  specialize (IH Hnbt Hlt).
  destruct t as [|b t'].
  - assert (Ha : (a =? LF) = false).
    { apply N.eqb_neq. intros ->. now apply (Hlast []). }
    cbn [app]. rewrite split_nn_step by (now rewrite Ha).
    now rewrite split_nn_sep.
  - assert (Hab : (a =? LF) && (b =? LF) = false).
    { destruct ((a =? LF) && (b =? LF)) eqn:H; [|reflexivity].
      apply andb_true_iff in H as [Ha Hb].
      apply N.eqb_eq in Ha, Hb. subst a b.
      exfalso. now apply (Hnb [] t'). }
    cbn [app] in *. rewrite split_nn_step by exact Hab.
    now rewrite IH.
Qed.

Lemma clause_shaped_last c : clause_shaped c -> forall c', c <> c' ++ [LF].
Proof.
  intros (_ & Hs & _) c' ->.
  pose proof (strip_last _ _ _ Hs) as H. discriminate H.
Qed.

Lemma split_nn_join cs :
  cs <> [] -> Forall clause_shaped cs -> split_nn (Str.join [LF; LF] cs) = cs.
Proof.
  induction cs as [|c [|d ds] IH]; intros Hne Hall; [congruence | |].
  - simpl. apply split_nn_no_blank_line.
    inversion Hall as [|? ? (_ & _ & Hnb) _]. exact Hnb.
  - rewrite join_cons.
    inversion Hall as [|? ? Hc Hrest]; subst.
    change ([LF; LF] ++ Str.join [LF; LF] (d :: ds))
      with (LF :: LF :: Str.join [LF; LF] (d :: ds)).
    rewrite split_nn_app_sep;
      [| exact (proj2 (proj2 Hc)) | now apply clause_shaped_last].
    f_equal. apply IH; [discriminate | exact Hrest].
Qed.

Lemma extract_pieces_shaped cs :
  Forall clause_shaped cs ->
  List.map strip (List.filter (fun p => truthy (strip p)) cs) = cs.
Proof.
  induction 1 as [|c cs (Hne & Hs & _) _ IH]; [reflexivity|].
  cbn [List.filter]. rewrite Hs.
  destruct c as [|a t]; [congruence|]. cbn [truthy List.map].
  now rewrite Hs, IH.
Qed.

(** X: clauses written out with a blank line between them are segmented
    into the same clauses again. *)
Theorem extract_clauses_join cs :
  Forall clause_shaped cs -> extract_clauses (Str.join [LF; LF] cs) = cs.
Proof.
  intros Hall. destruct cs as [|c cs']; [reflexivity|].
  unfold extract_clauses. rewrite split_nn_join by (discriminate || exact Hall).
  now apply extract_pieces_shaped.
Qed.

Lemma clause_shaped_decide c :
  truthy c = true -> strip c = c -> has_blank_line c = false -> clause_shaped c.
Proof.
  intros Hne Hs Hnb. split; [now apply truthy_true|].
  split; [exact Hs | now apply has_blank_line_false].
Qed.

Lemma extract_clauses_join_witness :
  extract_clauses (lit "First clause." ++ [LF; LF] ++ lit "Second" ++ [LF] ++ lit "clause.")
  = [lit "First clause."; lit "Second" ++ [LF] ++ lit "clause."].
Proof.
  apply (extract_clauses_join [lit "First clause."; lit "Second" ++ [LF] ++ lit "clause."]).
  repeat constructor; apply clause_shaped_decide; reflexivity.
Defined.

Lemma extract_clauses_shaped T : Forall clause_shaped (extract_clauses T).
Proof.
  apply List.Forall_forall. intros c Hc.
  apply in_extract_clauses in Hc as (p & Hin & Hne & ->).
  split; [exact Hne|]. split; [apply strip_idem|].
  eapply no_blank_line_infix; [apply is_infix_strip|].
  apply has_blank_line_false.
  exact (proj1 (List.Forall_forall _ _) (split_nn_pieces_no_blank T) p Hin).
Qed.

(** X: segmentation is stable: the clauses of a text, written out with
    blank lines between them, are segmented into themselves. *)
Theorem extract_clauses_stable T :
  extract_clauses (Str.join [LF; LF] (extract_clauses T)) = extract_clauses T.
Proof.
  set (cs := extract_clauses T).
  pose proof (extract_clauses_shaped T) as Hall. fold cs in Hall.
  destruct cs as [|c cs']; [reflexivity|].
  unfold extract_clauses at 1. rewrite split_nn_join by (discriminate || exact Hall).
  now apply extract_pieces_shaped.
Qed.

(** ** Relevance filtering without assumptions on the provider *)

Lemma find_relevant_clauses_ok_inv E sop clauses model threshold relevant :
  find_relevant_clauses E sop clauses model threshold = Ok relevant ->
  exists scores,
    relevant = List.filter (clears (default threshold_default threshold))
                 (combine clauses scores).
Proof.
  unfold find_relevant_clauses, encode_text, calculate_similarity.
  destruct (encode E model (OneText sop)) as [e1|]; [|discriminate].
  destruct (encode E model (ManyTexts clauses)) as [e2|]; [|discriminate].
  simpl. destruct (cos_sim_row E e1 e2) as [scores|]; [|discriminate].
  simpl. intros [= <-]. exists scores. apply relevant_loop_filter.
Qed.

Lemma kept_clauses_sublist {A B} (f : A * B -> bool) (l : list A) (l' : list B) :
  sublist (List.map fst (List.filter f (combine l l'))) l.
Proof.
  revert l'. induction l as [|a l IH]; intros [|b l']; simpl;
    try apply sublist_nil_l.
  destruct (f (a, b)); simpl; [apply sublist_skip | apply sublist_cons]; apply IH.
Qed.

(** X: whatever the embedding library returns (too few scores, too many),
    the clauses of a result are clauses of the input in the order of the
    input, there are no more of them than input clauses, and every score of
    the result reaches the threshold in single precision: it is at least
    the threshold rounded to the nearest single-precision number.  A score
    of the result that single precision holds and that is below the
    threshold is that rounded threshold. *)
Theorem find_relevant_clauses_sound E sop clauses model threshold relevant :
  find_relevant_clauses E sop clauses model (Some threshold) = Ok relevant ->
  sublist (List.map fst relevant) clauses /\
  (length relevant <= length clauses)%nat /\
  forall clause score, In (clause, score) relevant ->
    In clause clauses /\
    Float32.ge score (Float32.of_float threshold) = true /\
    (is_float32 score -> (score < threshold)%Q ->
     exists v, Float32.of_float threshold = Float32.Finite v /\ (v == score)%Q).
Proof.
  intros H. apply find_relevant_clauses_ok_inv in H as [scores ->]. simpl.
  pose proof (kept_clauses_sublist (clears threshold) clauses scores) as Hsub.
  split; [exact Hsub|]. split.
  - apply sublist_length in Hsub. now rewrite length_map in Hsub.
  - intros clause score Hin. apply List.filter_In in Hin as [Hin Hc].
    split; [eapply in_combine_l; eauto|]. split; [exact Hc|].
    intros Hf Hlt. now apply (clears_below threshold clause score).
Qed.

Lemma find_relevant_clauses_sound_witness :
  sublist [lit "Wash hands with soap."; lit "Sixchr"]
    [lit "Short"; lit "Wash hands with soap."; lit "Sixchr"].
Proof.
  apply (find_relevant_clauses_sound Fixture.env Fixture.SOP
           [lit "Short"; lit "Wash hands with soap."; lit "Sixchr"] tt (6 # 8)
           [(lit "Wash hands with soap.", 8 # 8); (lit "Sixchr", 6 # 8)]).
  reflexivity.
Defined.

Lemma filter_sublist_stronger {A} (f g : A -> bool) l :
  (forall x, g x = true -> f x = true) ->
  sublist (List.filter g l) (List.filter f l).
Proof.
  intros Hfg. induction l as [|x l IH]; simpl; [constructor|].
  destruct (g x) eqn:Hg.
  - rewrite (Hfg x Hg). now constructor.
  - destruct (f x); [now constructor | exact IH].
Qed.

(** X: raising the threshold never adds a clause: the result for the higher
    threshold is the result for the lower one with some pairs left out. *)
Theorem find_relevant_clauses_monotone E sop clauses model low high r_low r_high :
  (low <= high)%Q ->
  find_relevant_clauses E sop clauses model (Some low) = Ok r_low ->
  find_relevant_clauses E sop clauses model (Some high) = Ok r_high ->
  sublist r_high r_low.
Proof.
  unfold find_relevant_clauses, encode_text, calculate_similarity.
  destruct (encode E model (OneText sop)) as [e1|]; [|discriminate].
  destruct (encode E model (ManyTexts clauses)) as [e2|]; [|discriminate].
  simpl. destruct (cos_sim_row E e1 e2) as [scores|]; [|discriminate].
  simpl. rewrite !relevant_loop_filter. simpl.
  intros Hle [= <-] [= <-].
  apply filter_sublist_stronger. intros [c s] Hs.
  unfold clears in *. simpl in *. exact (ge_monotone s low high Hle Hs).
Qed.

Lemma find_relevant_clauses_monotone_witness :
  sublist [(lit "Wash hands with soap.", 8 # 8)]
    [(lit "Wash hands with soap.", 8 # 8); (lit "Sixchr", 6 # 8)].
Proof.
  apply (find_relevant_clauses_monotone Fixture.env Fixture.SOP
           [lit "Short"; lit "Wash hands with soap."; lit "Sixchr"] tt
           (6 # 8) (7 # 8)).
  - discriminate.
  - reflexivity.
  - reflexivity.
Defined.

(** ** Folder mode: what a returned aggregate guarantees *)

Lemma process_single_ok_inv E sop_text path model w relevant w' :
  process_single_regulatory_doc E sop_text path model w = (Ok relevant, w') ->
  w' = w /\
  exists text,
    files w !! path = Some text /\
    find_relevant_clauses E sop_text (extract_clauses (universal_newlines text))
      model None = Ok relevant.
Proof.
  unfold process_single_regulatory_doc, bind, load_text, read_file, lift.
  destruct (files w !! path) as [text|].
  - intros [= H <-]. split; [reflexivity|]. now exists text.
  - destruct (dirs w !! path); discriminate.
Qed.

Lemma docs_loop_ok_inv E sop_text folder model w :
  forall filenames all_relevant result w',
  docs_loop E sop_text folder model filenames all_relevant w = (Ok result, w') ->
  w' = w /\
  exists added,
    result = all_relevant ++ added /\
    sublist (List.map fst added) filenames /\
    forall name relevant, In (name, relevant) added ->
      In name filenames /\ eligible E name = true /\ relevant <> [] /\
      process_single_regulatory_doc E sop_text (PosixPath.join folder name) model w
      = (Ok relevant, w).
Proof.
  induction filenames as [|name rest IH]; intros acc result w' H.
  - simpl in H. injection H as <- <-. split; [reflexivity|].
    exists []. rewrite app_nil_r.
    split; [reflexivity|]. split; [apply sublist_nil_l | intros ? ? []].
  - cbn [docs_loop] in H. destruct (eligible E name) eqn:Hel.
    + unfold bind at 1 in H.
      destruct (process_single_regulatory_doc E sop_text (PosixPath.join folder name) model w)
        as [[relevant|e] w1] eqn:Hp; [|discriminate].
      destruct (process_single_ok_inv _ _ _ _ _ _ _ Hp) as [-> _].
      apply IH in H as (-> & added & -> & Hsub & Hall).
      split; [reflexivity|].
      destruct relevant as [|pair pairs].
      * exists added. split; [reflexivity|]. split; [now constructor|].
        intros n r Hin. destruct (Hall n r Hin) as (? & ? & ? & ?).
        repeat split; auto. now right.
      * exists ((name, pair :: pairs) :: added).
        split; [now rewrite <- app_assoc|]. split; [simpl; now constructor|].
        intros n r [[= <- <-] | Hin].
        -- repeat split; [now left | exact Hel | discriminate | exact Hp].
        -- destruct (Hall n r Hin) as (? & ? & ? & ?).
           repeat split; auto. now right.
    + apply IH in H as (-> & added & -> & Hsub & Hall).
      split; [reflexivity|]. exists added.
      split; [reflexivity|]. split; [now constructor|].
      intros n r Hin. destruct (Hall n r Hin) as (? & ? & ? & ?).
      repeat split; auto. now right.
Qed.

(** At the default threshold the comparison in single precision is as
    strict as the exact one: 0.4 rounds up. *)
Lemma clears_default clause score :
  clears threshold_default (clause, score) = true -> (4 # 10 <= score)%Q.
Proof.
  unfold clears. cbn [snd].
  change (Float32.of_float threshold_default)
    with (Float32.Finite (13421773 # 33554432)).
  cbn [Float32.ge]. intros H. apply Qle_bool_iff in H.
  eapply Qle_trans; [|exact H]. discriminate.
Qed.

(** X: whenever folder mode returns an aggregate, the world is as before
    (nothing printed, nothing written) and every entry is sound: its name
    is an eligible name of the listing, names come in listing order, its
    clause list is not empty, and each of its clauses is a clause of that
    file, as read in text mode, with a score of at least 0.4. *)
Theorem process_regulatory_docs_sound E sop_file folder w result w' :
  process_regulatory_docs E sop_file folder w = (Ok result, w') ->
  w' = w /\
  exists filenames,
    dirs w !! folder = Some filenames /\
    sublist (List.map fst result) filenames /\
    forall name relevant, In (name, relevant) result ->
      In name filenames /\ eligible E name = true /\ relevant <> [] /\
      exists text,
        files w !! PosixPath.join folder name = Some text /\
        forall clause score, In (clause, score) relevant ->
          In clause (extract_clauses (universal_newlines text)) /\
          (4 # 10 <= score)%Q.
Proof.
  unfold process_regulatory_docs, bind, lift, load_text, read_file, os_listdir.
  destruct (SentenceTransformer E MODEL_NAME) as [model|]; [|discriminate].
  destruct (files w !! sop_file) as [sop_text|];
    [|destruct (dirs w !! sop_file); discriminate].
  destruct (dirs w !! folder) as [filenames|];
    [|destruct (files w !! folder); discriminate].
  intros H. apply docs_loop_ok_inv in H as (-> & added & -> & Hsub & Hall).
  split; [reflexivity|]. exists filenames. split; [reflexivity|].
  split; [exact Hsub|].
  intros name relevant Hin. destruct (Hall name relevant Hin) as (Hn & Hel & Hne & Hp).
  repeat split; try assumption.
  apply process_single_ok_inv in Hp as (_ & text & Htext & Hfind).
  exists text. split; [exact Htext|].
  apply find_relevant_clauses_ok_inv in Hfind as [scores ->].
  intros clause score Hcs. apply List.filter_In in Hcs as [Hcs Hc].
  split; [eapply in_combine_l; eauto | now apply clears_default in Hc].
Qed.

Lemma process_regulatory_docs_sound_witness :
  exists filenames,
    dirs Fixture.world !! lit "regs" = Some filenames /\
    sublist [lit "a_extracted.txt"; lit "c_EXTRACTED.TXT"] filenames.
Proof.
  destruct (process_regulatory_docs_sound Fixture.env (lit "sop.txt") (lit "regs")
              Fixture.world
              [(lit "a_extracted.txt", [(lit "Wash hands with soap.", 8 # 8)]);
               (lit "c_EXTRACTED.TXT", [(lit "Keep the bench clean.", 8 # 8)])]
              Fixture.world)
    as (_ & filenames & Hdir & Hsub & _).
  - vm_compute. reflexivity.
  - exists filenames. split; [exact Hdir | exact Hsub].
Defined.

(** ** Folder mode: names that are not eligible *)

Lemma read_file_same_reads path w1 w2 :
  same_reads w1 w2 -> fst (read_file path w1) = fst (read_file path w2).
Proof.
  intros [Hf Hd]. unfold read_file. rewrite Hf.
  destruct (files w2 !! path); [reflexivity|].
  specialize (Hd path).
  destruct (dirs w1 !! path), (dirs w2 !! path); try reflexivity.
  - destruct (proj1 Hd ltac:(eauto)) as [? [=]].
  - destruct (proj2 Hd ltac:(eauto)) as [? [=]].
Qed.

Lemma process_single_same_reads E sop_text path model w1 w2 :
  same_reads w1 w2 ->
  fst (process_single_regulatory_doc E sop_text path model w1)
  = fst (process_single_regulatory_doc E sop_text path model w2).
Proof.
  intros H. unfold process_single_regulatory_doc, bind, load_text.
  pose proof (read_file_same_reads path w1 w2 H) as Hr.
  pose proof (read_file_world path w1) as H1.
  pose proof (read_file_world path w2) as H2.
  destruct (read_file path w1) as [[t1|e1] u1], (read_file path w2) as [[t2|e2] u2];
    simpl in *; congruence.
Qed.

Lemma docs_loop_same_reads E sop_text folder model w1 w2 :
  same_reads w1 w2 ->
  forall filenames all_relevant,
  fst (docs_loop E sop_text folder model filenames all_relevant w1)
  = fst (docs_loop E sop_text folder model filenames all_relevant w2).
Proof.
  intros H. induction filenames as [|name rest IH]; intros acc; [reflexivity|].
  cbn [docs_loop]. destruct (eligible E name); [|apply IH].
  unfold bind.
  pose proof (process_single_same_reads E sop_text (PosixPath.join folder name) model w1 w2 H) as Hr.
  pose proof (process_single_world E sop_text (PosixPath.join folder name) model w1) as H1.
  pose proof (process_single_world E sop_text (PosixPath.join folder name) model w2) as H2.
  destruct (process_single_regulatory_doc E sop_text (PosixPath.join folder name) model w1)
    as [[r1|e1] u1],
    (process_single_regulatory_doc E sop_text (PosixPath.join folder name) model w2)
    as [[r2|e2] u2]; simpl in *; subst; try congruence.
  injection Hr as ->. apply IH.
Qed.

Lemma docs_loop_filter E sop_text folder model w :
  forall filenames all_relevant,
  docs_loop E sop_text folder model (List.filter (eligible E) filenames) all_relevant w
  = docs_loop E sop_text folder model filenames all_relevant w.
Proof.
  induction filenames as [|name rest IH]; intros acc; [reflexivity|].
  cbn [List.filter docs_loop]. destruct (eligible E name) eqn:Hel; [|apply IH].
  cbn [docs_loop]. rewrite Hel. unfold bind.
  destruct (process_single_regulatory_doc E sop_text (PosixPath.join folder name) model w)
    as [[r|e] u] eqn:Hp; [|reflexivity].
  pose proof (process_single_world E sop_text (PosixPath.join folder name) model w) as Hw.
  rewrite Hp in Hw. simpl in Hw. subst u. apply IH.
Qed.

(** X: the names of a folder that are not eligible play no part: with them
    taken out of the listing, folder mode gives the same result. *)
Theorem process_regulatory_docs_ignores_ineligible E sop_file folder w filenames :
  dirs w !! folder = Some filenames ->
  fst (process_regulatory_docs E sop_file folder
         (set_dirs (<[folder := List.filter (eligible E) filenames]> (dirs w)) w))
  = fst (process_regulatory_docs E sop_file folder w).
Proof.
  intros Hdir.
  set (w2 := set_dirs (<[folder := List.filter (eligible E) filenames]> (dirs w)) w).
  assert (Hsame : same_reads w2 w).
  { split; [reflexivity|]. intros p. simpl.
    destruct (decide (folder = p)) as [<-|Hne].
    - rewrite lookup_insert_eq, Hdir. split; eauto.
    - now rewrite lookup_insert_ne. }
  unfold process_regulatory_docs, bind, lift.
  destruct (SentenceTransformer E MODEL_NAME) as [model|e]; [|reflexivity].
  unfold load_text.
  pose proof (read_file_same_reads sop_file w2 w Hsame) as Hr.
  pose proof (read_file_world sop_file w2) as H2.
  pose proof (read_file_world sop_file w) as H1.
  destruct (read_file sop_file w2) as [[t2|e2] u2], (read_file sop_file w) as [[t1|e1] u1];
    simpl in *; subst; try congruence.
  injection Hr as ->.
  unfold os_listdir. rewrite Hdir. simpl dirs at 1. rewrite lookup_insert_eq.
  rewrite docs_loop_filter. now apply docs_loop_same_reads.
Qed.

Lemma process_regulatory_docs_ignores_ineligible_witness :
  fst (process_regulatory_docs Fixture.env (lit "sop.txt") (lit "regs")
         (set_dirs (<[lit "regs" := [lit "a_extracted.txt"; lit "b_extracted.txt";
                                     lit "c_EXTRACTED.TXT"]]> (dirs Fixture.world))
            Fixture.world))
  = fst (process_regulatory_docs Fixture.env (lit "sop.txt") (lit "regs") Fixture.world).
Proof.
  apply (process_regulatory_docs_ignores_ineligible Fixture.env (lit "sop.txt") (lit "regs")
           Fixture.world
           [lit "a_extracted.txt"; lit "notes.md"; lit "b_extracted.txt";
            lit "c_EXTRACTED.TXT"]).
  vm_compute. reflexivity.
Defined.

(** ** Single-file mode: when [None] is returned *)


(** ** Checking the paths *)



(** ** The prompt holds its inputs *)

Lemma is_infix_mid a b c : is_infix b (a ++ b ++ c).
Proof. now exists a, c. Qed.

(** X: nothing is cut from the prompt: the SOP text, the regulation name,
    and every relevant clause, both its text and its rendering with the
    score, occur in the prompt as they are. *)
Theorem create_prompt_contains sop_text relevant_clauses reg_name :
  is_infix sop_text (create_prompt sop_text relevant_clauses reg_name) /\
  is_infix reg_name (create_prompt sop_text relevant_clauses reg_name) /\
  forall clause score, In (clause, score) relevant_clauses ->
    is_infix (render_clause (clause, score))
      (create_prompt sop_text relevant_clauses reg_name) /\
    is_infix clause (create_prompt sop_text relevant_clauses reg_name).
Proof.
  unfold create_prompt. split; [apply is_infix_mid|]. split.
  - do 5 apply is_infix_app_l. apply is_infix_app_r, is_infix_refl.
  - intros clause score Hin.
    assert (H : is_infix (render_clause (clause, score))
                  (Str.join (NL ++ NL) (List.map render_clause relevant_clauses))).
    { apply is_infix_join. apply in_map_iff. now exists (clause, score). }
    assert (Hr : is_infix (render_clause (clause, score))
              (PROMPT_HEAD ++ sop_text ++ NL ++ NL ++
               lit "### RELEVANT REGULATORY CLAUSES FROM " ++ reg_name ++ lit ":" ++ NL ++
               Str.join (NL ++ NL) (List.map render_clause relevant_clauses) ++ PROMPT_TAIL)).
    { do 8 apply is_infix_app_l. now apply is_infix_app_r. }
    split; [exact Hr|].
    eapply is_infix_trans; [|exact Hr].
    unfold render_clause. do 3 apply is_infix_app_l. apply is_infix_refl.
Qed.

Lemma create_prompt_contains_witness :
  is_infix (lit "Clause (score: 0.457): Wear gloves.")
    (create_prompt Fixture.SOP [(lit "Wear gloves.", 4567 # 10000)] (lit "reg.txt")).
Proof.
  destruct (create_prompt_contains Fixture.SOP [(lit "Wear gloves.", 4567 # 10000)]
              (lit "reg.txt")) as (_ & _ & Hclauses).
  apply (Hclauses (lit "Wear gloves.") (4567 # 10000)).
  left. reflexivity.
Defined.

(** ** Storing a report: success, failure, two saves *)

Lemma join_neq_dir d filename :
  d <> [] -> filename <> [] -> startswith filename [PosixPath.SEP] = false ->
  PosixPath.join d filename <> d.
Proof.
  intros Hd Hf Hs.
  destruct (join_relative d filename Hd Hs) as [[-> _] | [-> _]];
    apply app_neq_self; [discriminate | exact Hf].
Qed.

(** The ways a save fails: the directory cannot be made and the world is as
    it was; a directory stands at the path of the report and no file is
    touched; the report cannot be encoded and its file is left empty. *)
Lemma save_report_raise_inv report reg_name output_dir w e w' :
  save_report report reg_name output_dir w = (Raise e, w') ->
  let d := default output_dir_default output_dir in
  let path := PosixPath.join d (report_filename reg_name (clock w (reads w))) in
  (exn_cls e <> UnicodeEncodeError /\ files w' = files w) \/
  (exn_cls e = UnicodeEncodeError /\ utf8_encodable report = false /\
   w' = saved_world d path [] w).
Proof.
  rewrite save_report_unfold. cbv zeta.
  destruct (os_makedirs (default output_dir_default output_dir) w)
    as [[[]|e1] w1] eqn:Hmk.
  - destruct (dirs_with _ w !! _).
    + intros [= <- <-]. left. split; [discriminate | reflexivity].
    + destruct (utf8_encodable report) eqn:Henc; [discriminate|].
      intros [= <- <-]. right. repeat split.
  - intros [= <- <-]. left. split.
    + revert Hmk. unfold os_makedirs.
      destruct (default output_dir_default output_dir) as [|x d];
        [intros [= <- _]; discriminate|].
      destruct (files w !! (x :: d)); [intros [= <- _]; discriminate|].
      destruct (dirs w !! (x :: d)); [discriminate|].
      destruct (makedirs_plan w (x :: d) (PosixPath.ancestors (x :: d)));
        [intros [= <- _]; discriminate | discriminate].
    + now rewrite (os_makedirs_Raise _ _ _ _ Hmk).
Qed.



Lemma join_inj d f1 f2 :
  startswith f1 [PosixPath.SEP] = false -> startswith f2 [PosixPath.SEP] = false ->
  PosixPath.join d f1 = PosixPath.join d f2 -> f1 = f2.
Proof.
  unfold PosixPath.join. intros -> ->.
  destruct (negb (truthy d) || endswith d [PosixPath.SEP]); intros H.
  - now apply app_inv_head in H.
  - apply app_inv_head in H. now injection H.
Qed.

Lemma report_filename_inj reg_name now1 now2 :
  report_filename reg_name now1 = report_filename reg_name now2 ->
  strftime now1 = strftime now2.
Proof.
  unfold report_filename. cbv zeta. intros H.
  apply app_inv_head in H. apply app_inv_head in H. apply app_inv_head in H.
  now apply app_inv_tail in H.
Qed.

Lemma report_filename_same reg_name now1 now2 :
  strftime now1 = strftime now2 ->
  report_filename reg_name now1 = report_filename reg_name now2.
Proof. unfold report_filename. cbv zeta. now intros ->. Qed.

Lemma dirs_with_saved d path report w :
  can_makedirs d w = true ->
  dirs_with d (saved_world d path report w) = dirs_with d w.
Proof.
  intros Hcan. unfold dirs_with at 1. simpl dirs.
  destruct (dirs_with_present d w Hcan) as [l ->]. reflexivity.
Qed.

Lemma can_makedirs_saved d path report w :
  can_makedirs d w = true -> can_makedirs d (saved_world d path report w) = true.
Proof.
  intros Hcan. unfold can_makedirs at 1. simpl dirs.
  now destruct (dirs_with_present d w Hcan) as [l ->].
Qed.

(** Whatever the outcome of a save, a file at another path than the one of
    the report is as it was. *)
Lemma save_report_frame report reg_name output_dir w res w' p :
  save_report report reg_name output_dir w = (res, w') ->
  p <> PosixPath.join (default output_dir_default output_dir)
         (report_filename reg_name (clock w (reads w))) ->
  files w' !! p = files w !! p.
Proof.
  intros H Hp. destruct res as [path|e].
  - apply save_report_ok_inv in H as (_ & _ & _ & _ & -> & _ & ->).
    simpl. now rewrite lookup_insert_ne by congruence.
  - destruct (save_report_raise_inv _ _ _ _ _ _ H) as [[_ Hf] | (_ & _ & ->)].
    + now rewrite Hf.
    + simpl. now rewrite lookup_insert_ne by congruence.
Qed.

(** X: two saves for the same regulation within the same second collide.
    A second report that can be encoded goes to the same path and replaces
    the first; one that cannot be encoded is not saved, and the file of the
    first report is left empty. *)
Theorem save_report_same_second report1 report2 reg_name output_dir w path w1 :
  save_report report1 reg_name output_dir w = (Ok path, w1) ->
  strftime (clock w (S (reads w))) = strftime (clock w (reads w)) ->
  (utf8_encodable report2 = true ->
   exists w2,
     save_report report2 reg_name output_dir w1 = (Ok path, w2) /\
     files w2 !! path = Some report2) /\
  (utf8_encodable report2 = false ->
   exists w2,
     save_report report2 reg_name output_dir w1
     = (Raise (encode_error report2), w2) /\
     files w2 !! path = Some []).
Proof.
  intros H1 Hsame.
  apply save_report_ok_inv in H1 as (Hd & Hf & Hcan & _ & Hpath & Hfree & ->).
  set (d := default output_dir_default output_dir) in *.
  destruct (report_filename_relative reg_name (clock w (reads w))) as [Hne Hrel].
  assert (Hpd : path <> d) by (subst path; now apply join_neq_dir).
  pose proof (save_report_unfold report2 reg_name output_dir
                (saved_world d path report1 w)) as H2.
  cbv zeta in H2. fold d in H2. simpl clock in H2. simpl reads in H2.
  rewrite (report_filename_same reg_name _ _ Hsame), <- Hpath in H2.
  rewrite (dirs_with_saved _ _ _ _ Hcan), Hfree in H2.
  rewrite os_makedirs_intro in H2;
    [| exact Hd
     | simpl; now rewrite lookup_insert_ne by congruence
     | now apply can_makedirs_saved].
  split; intros Henc; rewrite Henc in H2; eexists; (split; [exact H2|]);
    simpl; apply lookup_insert_eq.
Qed.

Lemma save_report_same_second_witness :
  exists w2,
    save_report (lit "SECOND") (lit "Reg A.txt") None
      (snd (save_report (lit "FIRST") (lit "Reg A.txt") None Fixture.world))
    = (Ok (lit "reports/compliance_report_Reg A_20240309_120005.txt"), w2) /\
    files w2 !! lit "reports/compliance_report_Reg A_20240309_120005.txt"
    = Some (lit "SECOND").
Proof.
  apply (save_report_same_second (lit "FIRST") (lit "SECOND") (lit "Reg A.txt") None
           Fixture.world).
  - vm_compute. reflexivity.
  - reflexivity.
  - reflexivity.
Defined.

(** A second report that cannot be encoded empties the file of the first. *)
Example save_report_same_second_unencodable :
  let w1 := snd (save_report (lit "FIRST") (lit "Reg A.txt") None Fixture.world) in
  let w2 := snd (save_report [56320] (lit "Reg A.txt") None w1) in
  files w1 !! lit "reports/compliance_report_Reg A_20240309_120005.txt"
  = Some (lit "FIRST") /\
  files w2 !! lit "reports/compliance_report_Reg A_20240309_120005.txt"
  = Some [].
Proof. split; vm_compute; reflexivity. Qed.

(** X: a save for the same regulation at another second goes to another
    path: whatever its outcome, the first report is still in its file. *)
Theorem save_report_next_second report1 report2 reg_name output_dir w path1 w1 res w2 :
  save_report report1 reg_name output_dir w = (Ok path1, w1) ->
  strftime (clock w (S (reads w))) <> strftime (clock w (reads w)) ->
  save_report report2 reg_name output_dir w1 = (res, w2) ->
  files w2 !! path1 = Some report1 /\ res <> Ok path1.
Proof.
  intros H1 Hdiff H2.
  apply save_report_ok_inv in H1 as (Hd & Hf & _ & _ & Hpath & Hfree & ->).
  set (d := default output_dir_default output_dir) in *.
  assert (Hne : path1 <> PosixPath.join d
                  (report_filename reg_name (clock w (S (reads w))))).
  { rewrite Hpath. intros Heq. apply Hdiff. symmetry.
    apply (report_filename_inj reg_name).
    eapply join_inj; [reflexivity | reflexivity | exact Heq]. }
  split.
  - rewrite (save_report_frame _ _ _ _ _ _ path1 H2 Hne).
    simpl. apply lookup_insert_eq.
  - intros ->. apply save_report_ok_inv in H2 as (_ & _ & _ & _ & Hp2 & _).
    now apply Hne.
Qed.

Lemma save_report_next_second_witness :
  files (snd (save_report (lit "SECOND") (lit "Reg A.txt") None
                (snd (save_report (lit "FIRST") (lit "Reg A.txt") None
                        Fixture2.ui_world))))
  !! lit "reports/compliance_report_Reg A_20240309_120000.txt"
  = Some (lit "FIRST").
Proof.
  apply (save_report_next_second (lit "FIRST") (lit "SECOND") (lit "Reg A.txt") None
           Fixture2.ui_world
           (lit "reports/compliance_report_Reg A_20240309_120000.txt")
           (snd (save_report (lit "FIRST") (lit "Reg A.txt") None Fixture2.ui_world))
           (fst (save_report (lit "SECOND") (lit "Reg A.txt") None
                   (snd (save_report (lit "FIRST") (lit "Reg A.txt") None
                           Fixture2.ui_world))))).
  - vm_compute. reflexivity.
  - vm_compute. discriminate.
  - apply surjective_pairing.
Defined.

(** ** What the steps leave untouched *)

Lemma only_printed_refl w : only_printed w w.
Proof. now repeat split. Qed.


Lemma print_only_printed line w : only_printed w (snd (print line w)).
Proof. now repeat split. Qed.

Lemma generate_report_only_printed E prompt max_tokens w :
  only_printed w (snd (generate_report_with_claude E prompt max_tokens w)).
Proof.
  unfold generate_report_with_claude, try_except, lift.
  destruct (generate_report_body E prompt _) as [text|e]; [apply only_printed_refl|].
  destruct (is_Exception e); [now repeat split | apply only_printed_refl].
Qed.

Lemma process_specific_only_printed E sop_file reg_file_path w :
  only_printed w (snd (process_specific_reg_file E sop_file reg_file_path w)).
Proof.
  unfold process_specific_reg_file, bind at 1, os_path_exists.
  destruct (negb _); [now repeat split|].
  unfold bind, lift, ret, load_text.
  destruct (SentenceTransformer E MODEL_NAME) as [m|]; [|apply only_printed_refl].
  pose proof (read_file_world sop_file w) as Hw.
  destruct (read_file sop_file w) as [[text|e] w1]; simpl in Hw; subst w1;
    [|apply only_printed_refl].
  pose proof (process_single_world E text reg_file_path m w) as Hw.
  destruct (process_single_regulatory_doc E text reg_file_path m w) as [[r|e] w1];
    simpl in Hw; subst w1; apply only_printed_refl.
Qed.


(** ** Single-file mode: what a returned value guarantees *)

(** X: when [analyze_specific_regulation] returns [None] no file has
    changed; when it returns a path, that path is
    [reports/compliance_report_BASE_TIME.txt] for the base name of the
    regulation file and the current reading of the clock, the file at that
    path holds a report, and no other file has changed. *)
Theorem analyze_specific_regulation_outcome E sop_file reg_file_path w result w' :
  analyze_specific_regulation E sop_file reg_file_path w = (Ok result, w') ->
  match result with
  | None => files w' = files w
  | Some path =>
      path = PosixPath.join output_dir_default
               (report_filename (PosixPath.basename reg_file_path) (clock w (reads w))) /\
      (exists report, files w' !! path = Some report) /\
      forall p, p <> path -> files w' !! p = files w !! p
  end.
Proof.
  unfold analyze_specific_regulation, bind at 1. cbv zeta.
  pose proof (process_specific_only_printed E sop_file reg_file_path w) as H1.
  destruct (process_specific_reg_file E sop_file reg_file_path w) as [[rc|e] w1];
    [|discriminate]. simpl in H1. destruct H1 as (Hf1 & Hd1 & Hc1 & Hr1).
  assert (Hnone : forall line,
            (print line ;;; ret (@None (list N)))%io w1 = (Ok result, w') ->
            match result with
            | None => files w' = files w
            | Some path =>
                path = PosixPath.join output_dir_default
                         (report_filename (PosixPath.basename reg_file_path)
                            (clock w (reads w))) /\
                (exists report, files w' !! path = Some report) /\
                forall p, p <> path -> files w' !! p = files w !! p
            end).
  { intros line [= <- <-]. exact Hf1. }
  destruct rc as [[|c cs]|]; [apply Hnone | | apply Hnone].
  unfold bind at 1, load_text.
  pose proof (read_file_world sop_file w1) as Hw.
  destruct (read_file sop_file w1) as [[sop_text|e] u]; simpl in Hw; subst u;
    [|discriminate].
  unfold bind at 1, print at 1.
  match goal with
  | |- context [set_stdout ?o w1] => set (w2 := set_stdout o w1)
  end.
  unfold bind at 1.
  match goal with
  | |- context [generate_report_with_claude E ?p None w2] =>
      pose proof (generate_report_only_printed E p None w2) as H3;
      destruct (generate_report_with_claude E p None w2) as [[report|e] w3]
  end; [|discriminate].
  simpl in H3. destruct H3 as (Hf3 & Hd3 & Hc3 & Hr3).
  unfold bind at 1.
  destruct (save_report report (PosixPath.basename reg_file_path) None w3)
    as [[path|e] w4] eqn:Hsave; [|discriminate].
  apply save_report_ok_inv in Hsave as (_ & _ & _ & _ & Hpath & _ & ->).
  unfold bind, print, ret. intros [= <- <-].
  simpl default in Hpath. rewrite Hc3, Hr3 in Hpath. simpl in Hpath.
  rewrite Hc1, Hr1 in Hpath.
  split; [exact Hpath|]. split.
  - exists report. simpl. apply lookup_insert_eq.
  - intros p Hp. simpl. rewrite lookup_insert_ne by congruence.
    rewrite Hf3. simpl. exact (f_equal (fun m => m !! p) Hf1).
Qed.

Lemma analyze_specific_regulation_outcome_witness :
  exists report,
    files (snd (analyze_specific_regulation Fixture.env (lit "sop.txt")
                  (lit "regs/a_extracted.txt") Fixture.world))
    !! lit "reports/compliance_report_a_extracted_20240309_120005.txt"
    = Some report.
Proof.
  pose proof (analyze_specific_regulation_outcome Fixture.env (lit "sop.txt")
                (lit "regs/a_extracted.txt") Fixture.world
                (Some (lit "reports/compliance_report_a_extracted_20240309_120005.txt"))
                (snd (analyze_specific_regulation Fixture.env (lit "sop.txt")
                        (lit "regs/a_extracted.txt") Fixture.world))) as H.
  cbv beta iota in H. destruct H as (_ & Hreport & _).
  - vm_compute. reflexivity.
  - exact Hreport.
Defined.

(** ** Folder mode: the reports that are written *)














(** ** Folder mode: failures *)




(** With a client that always fails, both documents of the fixture folder
    still get a report; its text is the error text. *)
Example analyze_all_regulations_failing_client :
  let '(result, w') :=
    analyze_all_regulations (Fixture.env_with (Some Fixture.failing_client))
      (lit "sop.txt") (lit "regs") Fixture.world in
  result = Ok [lit "reports/compliance_report_a_extracted_20240309_120005.txt";
               lit "reports/compliance_report_c_EXTRACTED_20240309_120005.txt"] /\
  files w' !! lit "reports/compliance_report_a_extracted_20240309_120005.txt"
  = Some (lit "Error: overloaded") /\
  files w' !! lit "reports/compliance_report_c_EXTRACTED_20240309_120005.txt"
  = Some (lit "Error: overloaded").
Proof. vm_compute. repeat split; reflexivity. Qed.

(** An answer that cannot be written as UTF-8 is a failure nothing catches:
    the first save raises, the file it opened is left empty, and the second
    document gets no report. *)
Example analyze_all_regulations_unencodable_answer :
  let '(result, w') :=
    analyze_all_regulations (Fixture.env_with (Some Fixture.surrogate_client))
      (lit "sop.txt") (lit "regs") Fixture.world in
  result = Raise (Exn UnicodeEncodeError
                    (lit "'utf-8' codec can't encode character '\ud83d' in position 0: surrogates not allowed")) /\
  files w' !! lit "reports/compliance_report_a_extracted_20240309_120005.txt"
  = Some [] /\
  files w' !! lit "reports/compliance_report_c_EXTRACTED_20240309_120005.txt"
  = None.
Proof. vm_compute. repeat split; reflexivity. Qed.

(** ** outputs.py *)

(** X: [get_available_regulations] raises nothing and prints nothing; it
    offers the names of the listing of [parsed/regulations] that end with
    [_extracted.txt] as written (upper-case suffixes are not offered), in
    listing order, and nothing when that folder is missing. *)
Theorem get_available_regulations_offers w :
  exists names,
    Outputs.get_available_regulations w = (Ok names, w) /\
    match dirs w !! lit "parsed/regulations" with
    | None => names = []
    | Some listing =>
        sublist names listing /\
        forall name, In name names <->
          In name listing /\ endswith name (lit "_extracted.txt") = true
    end.
Proof.
  unfold Outputs.get_available_regulations, bind at 1, os_path_isdir. cbv zeta.
  change (PosixPath.join (lit "parsed") (lit "regulations"))
    with (lit "parsed/regulations").
  destruct (dirs w !! lit "parsed/regulations") as [listing|] eqn:Hdir.
  - eexists. split.
    + simpl. unfold bind, os_listdir. rewrite Hdir. reflexivity.
    + split; [apply filter_sublist|]. intros name. unfold Outputs.SUFFIX.
      rewrite List.filter_In. reflexivity.
  - exists []. split; reflexivity.
Qed.

(** X: in the interface of outputs.py, a message that starts with
    [Analysis complete!] names the path of the report and quotes its text,
    and the file at that path holds exactly that text; with any other
    message no file has changed. *)
Theorem analyze_regulation_message E selection w message w' :
  Outputs.analyze_regulation E selection w = (Ok message, w') ->
  if startswith message (lit "Analysis complete!") then
    exists reg_file path report,
      selection = Some reg_file /\
      message = lit "Analysis complete! Report saved to " ++ path ++ NL ++ NL ++ report /\
      path = PosixPath.join output_dir_default
               (report_filename reg_file (clock w (reads w))) /\
      files w' !! path = Some report
  else files w' = files w.
Proof.
  unfold Outputs.analyze_regulation.
  destruct selection as [[|x reg]|]; try (intros [= <- <-]; reflexivity).
  cbv zeta. unfold bind at 1, os_path_exists.
  destruct (negb _); [intros [= <- <-]; reflexivity|].
  unfold bind at 1.
  match goal with
  | |- context [process_specific_reg_file E ?s ?r w] =>
      pose proof (process_specific_only_printed E s r w) as H1;
      destruct (process_specific_reg_file E s r w) as [[rc|e] w1]
  end; [|discriminate].
  simpl in H1. destruct H1 as (Hf1 & Hd1 & Hc1 & Hr1).
  destruct rc as [[|c cs]|]; try (intros [= <- <-]; exact Hf1).
  unfold bind at 1, load_text.
  match goal with
  | |- context [read_file ?s w1] =>
      pose proof (read_file_world s w1) as Hw;
      destruct (read_file s w1) as [[sop_text|e] u]
  end; simpl in Hw; subst u; [|discriminate].
  unfold bind at 1.
  match goal with
  | |- context [generate_report_with_claude E ?p None w1] =>
      pose proof (generate_report_only_printed E p None w1) as H3;
      destruct (generate_report_with_claude E p None w1) as [[report|e] w3]
  end; [|discriminate].
  simpl in H3. destruct H3 as (Hf3 & Hd3 & Hc3 & Hr3).
  unfold bind at 1.
  destruct (save_report report (x :: reg) None w3) as [[path|e] w4] eqn:Hsave;
    [|discriminate].
  apply save_report_ok_inv in Hsave as (_ & _ & _ & _ & Hpath & _ & ->).
  unfold ret. intros [= <- <-].
  change (startswith (lit "Analysis complete! Report saved to " ++ path ++ NL ++ NL ++ report)
            (lit "Analysis complete!")) with true. cbv iota.
  exists (x :: reg), path, report.
  split; [reflexivity|]. split; [reflexivity|]. split.
  - rewrite Hpath. simpl default. now rewrite Hc3, Hr3, Hc1, Hr1.
  - simpl. apply lookup_insert_eq.
Qed.

Lemma analyze_regulation_message_witness :
  exists path report,
    files (snd (Outputs.analyze_regulation Fixture.env (Some (lit "a_extracted.txt"))
                  Fixture2.ui_world)) !! path = Some report.
Proof.
  pose proof (analyze_regulation_message Fixture.env (Some (lit "a_extracted.txt"))
                Fixture2.ui_world
                (lit "Analysis complete! Report saved to reports/compliance_report_a_extracted_20240309_120000.txt"
                 ++ NL ++ NL ++ lit "REPORT")
                (snd (Outputs.analyze_regulation Fixture.env (Some (lit "a_extracted.txt"))
                        Fixture2.ui_world))) as H.
  change (startswith _ (lit "Analysis complete!")) with true in H. cbv iota in H.
  destruct H as (reg & path & report & _ & _ & _ & Hfile).
  - vm_compute. reflexivity.
  - exists path, report. exact Hfile.
Defined.

(** ** parser.py feeding the segmentation *)

Lemma docx_paragraphs_loop_concat paragraphs full_text :
  Parser.docx_paragraphs_loop paragraphs full_text
  = full_text ++ concat (List.map (fun para => para ++ NL) paragraphs).
Proof.
  revert full_text. induction paragraphs as [|p ps IH]; intros acc; simpl.
  - now rewrite app_nil_r.
  - rewrite IH. now rewrite <- app_assoc.
Qed.

Lemma has_blank_line_cons a s : a <> LF -> has_blank_line (a :: s) = has_blank_line s.
Proof.
  intros Ha. destruct s as [|b t]; [reflexivity|]. cbn [has_blank_line].
  apply N.eqb_neq in Ha. now rewrite Ha.
Qed.

Lemma has_blank_line_app p s : ~ In LF p -> has_blank_line (p ++ s) = has_blank_line s.
Proof.
  induction p as [|a p IH]; intros Hp; [reflexivity|]. cbn [app].
  rewrite has_blank_line_cons by (intros ->; apply Hp; now left).
  apply IH. intros H. apply Hp. now right.
Qed.

Lemma has_blank_line_after_LF c r s :
  c <> LF -> has_blank_line (NL ++ ((c :: r) ++ NL) ++ s)
             = has_blank_line (((c :: r) ++ NL) ++ s).
Proof.
  intros Hc. apply N.eqb_neq in Hc.
  change (NL ++ ((c :: r) ++ NL) ++ s) with (LF :: c :: ((r ++ NL) ++ s)).
  change (((c :: r) ++ NL) ++ s) with (c :: ((r ++ NL) ++ s)).
  set (t := (r ++ NL) ++ s). cbn [has_blank_line].
  now rewrite Hc, andb_false_r.
Qed.

Lemma docx_text_no_blank_line paragraphs :
  Forall plain_paragraph paragraphs ->
  has_blank_line (concat (List.map (fun para => para ++ NL) paragraphs)) = false.
Proof.
  induction 1 as [|p ps [Hne Hlf] Hps IH]; [reflexivity|].
  cbn [List.map concat]. rewrite <- app_assoc.
  rewrite has_blank_line_app by exact Hlf.
  destruct Hps as [|q qs [Hq Hqlf] _]; [reflexivity|].
  cbn [List.map concat] in *.
  destruct q as [|c q']; [congruence|].
  rewrite <- IH. apply has_blank_line_after_LF.
  intros ->. apply Hqlf. now left.
Qed.

(** X: a DOCX file whose paragraphs are not empty and hold no line break
    gives a text without a blank line, so segmentation makes at most one
    clause of the whole document, however many paragraphs it has. *)
Theorem extract_text_from_docx_one_clause L docx_path paragraphs w :
  Parser.Document L docx_path = Ok paragraphs ->
  Forall plain_paragraph paragraphs ->
  exists text,
    Parser.extract_text_from_docx L docx_path w = (Ok text, w) /\
    no_blank_line text /\
    (length (extract_clauses text) <= 1)%nat.
Proof.
  intros Hdoc Hplain.
  exists (concat (List.map (fun para => para ++ NL) paragraphs)).
  assert (Hnb : no_blank_line (concat (List.map (fun para => para ++ NL) paragraphs)))
    by now apply has_blank_line_false, docx_text_no_blank_line.
  split; [|split; [exact Hnb|]].
  - unfold Parser.extract_text_from_docx, bind, try_except, lift, ret.
    rewrite Hdoc. now rewrite docx_paragraphs_loop_concat.
  - unfold extract_clauses. rewrite (split_nn_no_blank_line _ Hnb).
    simpl. destruct (truthy _); simpl; lia.
Qed.

Lemma extract_text_from_docx_one_clause_witness :
  exists text,
    Parser.extract_text_from_docx Fixture2.libs (lit "sop.docx") Fixture.world
    = (Ok text, Fixture.world) /\
    (length (extract_clauses text) <= 1)%nat.
Proof.
  destruct (extract_text_from_docx_one_clause Fixture2.libs (lit "sop.docx")
              [lit "1. Wash hands."; lit "2. Dry hands."] Fixture.world)
    as (text & Hrun & _ & Hlen).
  - reflexivity.
  - repeat constructor; try discriminate;
      vm_compute; intros H; repeat (destruct H as [H|H]; [discriminate H|]); exact H.
  - exists text. split; [exact Hrun | exact Hlen].
Defined.





(** Two blank pages: the headings alone make up the clause. *)
Example extract_text_from_pdf_blank_pages :
  let text := pdf_text_of (Parser.extract_text_from_pdf Fixture2.libs (lit "scan.pdf")
                             Fixture.world) in
  extract_clauses text
  = [lit "--- Page 1 Text ---" ++ [LF] ++ lit "  " ++ [LF] ++ lit "--- Page 2 Text ---"].
Proof. vm_compute. reflexivity. Qed.

Lemma extract_clauses_keeps_nonspace_witness :
  extract_clauses [32; 10; 10; 9] = [].
Proof.
  apply (proj2 (proj2 (extract_clauses_keeps_nonspace [32; 10; 10; 9]))).
  repeat constructor.
Defined.


Lemma get_available_regulations_offers_witness :
  exists names,
    Outputs.get_available_regulations Fixture2.ui_world = (Ok names, Fixture2.ui_world) /\
    (In (lit "a_extracted.txt") names <->
     In (lit "a_extracted.txt")
       [lit "a_extracted.txt"; lit "B_EXTRACTED.TXT"; lit "readme.md"] /\
     endswith (lit "a_extracted.txt") (lit "_extracted.txt") = true).
Proof.
  destruct (get_available_regulations_offers Fixture2.ui_world) as (names & Hrun & H).
  change (dirs Fixture2.ui_world !! lit "parsed/regulations")
    with (Some [lit "a_extracted.txt"; lit "B_EXTRACTED.TXT"; lit "readme.md"]) in H.
  destruct H as [_ Hin].
  exists names. split; [exact Hrun | apply Hin].
Defined.

(** The name with the upper-case suffix is eligible in folder mode and is
    not offered by the interface. *)
Example upper_case_suffix_not_offered :
  eligible Fixture.env (lit "B_EXTRACTED.TXT") = true /\
  fst (Outputs.get_available_regulations Fixture2.ui_world)
  = Ok [lit "a_extracted.txt"].
Proof. split; vm_compute; reflexivity. Qed.
